(** * NU_SKYNET: persona filter, conversation store and streaming relay

    A shallow embedding of
      - [src/lib/nuSkynetFilter.ts]           (rewriteString, deepRewrite, filterNuSkynet)
      - [src/app/api/chat/route.ts]           (conversation helpers)
      - [src/app/api/chat/stream/route.ts]    (conversation helpers, stream handlers)
      - [src/app/api/clear-history/route.ts]  (POST)
      - the chat page                         (estimateWords, the guards of sendMessage)
    together with the properties of the specification checked against them.

    JavaScript strings are sequences of UTF-16 code units; they are modelled
    as [list N].  Regular expressions are modelled by a backtracking matcher
    that follows the priority order of the ECMAScript semantics (greedy and
    lazy quantifiers, ordered alternatives, [\b], [$]). *)

From Stdlib Require Import NArith String Ascii Bool Lia.
From Stdlib.Strings Require Import Byte.
From stdpp Require Import gmap list.

#[local] Set Warnings "-register-all".
#[local] Open Scope N_scope.
#[local] Open Scope list_scope.

(** ** Strings *)

Module JS.

(** A string is its list of UTF-16 code units. *)
Abbreviation jsstring := (list N).

(** Literals are written as Rocq strings of ASCII characters. *)
Definition js (s : string) : jsstring :=
  map N_of_ascii (list_ascii_of_string s).

(** Literals holding double quotes are written with [`] in their place. *)
Definition jsq (s : string) : jsstring :=
  map (fun c => if c =? 96 then 34 else c) (js s).

(** ECMAScript WhiteSpace and LineTerminator code points: the class [\s]
    of regular expressions and the characters removed by [trim]. *)
Definition is_space (c : N) : bool :=
  ((9 <=? c) && (c <=? 13)) || (c =? 32) || (c =? 160) || (c =? 5760)
  || ((8192 <=? c) && (c <=? 8202)) || (c =? 8232) || (c =? 8233)
  || (c =? 8239) || (c =? 8287) || (c =? 12288) || (c =? 65279).

(** Word characters of [\b] (no unicode flag): [A-Za-z0-9_]. *)
Definition is_word (c : N) : bool :=
  ((48 <=? c) && (c <=? 57)) || ((65 <=? c) && (c <=? 90))
  || (c =? 95) || ((97 <=? c) && (c <=? 122)).

(** Line terminators, which [.] does not match. *)
Definition is_line_terminator (c : N) : bool :=
  (c =? 10) || (c =? 13) || (c =? 8232) || (c =? 8233).

(** Canonicalize of the [i] flag without the [u] flag, on the characters
    that can equal an ASCII pattern character: a non-ASCII code unit never
    canonicalizes to an ASCII one, so only [a-z] are folded. *)
Definition canon (c : N) : N :=
  if (97 <=? c) && (c <=? 122) then c - 32 else c.

Definition chr_eq (ci : bool) (c x : N) : bool :=
  if ci then canon c =? canon x else c =? x.

(** [String.prototype.trim]. *)
Fixpoint trim_start (s : jsstring) : jsstring :=
  match s with
  | c :: t => if is_space c then trim_start t else s
  | [] => []
  end.

Definition trim_end (s : jsstring) : jsstring :=
  rev (trim_start (rev s)).

Definition trim (s : jsstring) : jsstring :=
  trim_end (trim_start s).

(** [String.prototype.startsWith]. *)
Fixpoint startsWith (s pre : jsstring) : bool :=
  match pre, s with
  | [], _ => true
  | p :: pre', c :: s' => (p =? c) && startsWith s' pre'
  | _ :: _, [] => false
  end.

(** Strict equality of two strings. *)
Fixpoint str_eqb (a b : jsstring) : bool :=
  match a, b with
  | [], [] => true
  | x :: a', y :: b' => (x =? y) && str_eqb a' b'
  | _, _ => false
  end.

End JS.
Export JS.

(** ** Regular expressions *)

Module RegExp.

Inductive cclass := CSpace | CNotSpace | CDot.

Definition in_class (k : cclass) (c : N) : bool :=
  match k with
  | CSpace => is_space c
  | CNotSpace => negb (is_space c)
  | CDot => negb (is_line_terminator c)
  end.

(** The fragment of the pattern language used by the filter. Quantifiers
    other than [?] are only ever applied to a character class. *)
Inductive regex :=
| Eps
| Chr (c : N)
| Seq (r1 r2 : regex)
| Alt (r1 r2 : regex)
| Opt (r : regex)
| Star (k : cclass)
| Plus (k : cclass)
| LazyStar (k : cclass)
| WordB
| Eos.

(** A position in the subject is the code unit before it (if any) and the
    rest of the subject. A continuation receives the position reached. *)
Definition cont := option N -> jsstring -> option jsstring.

Definition orelse (a b : option jsstring) : option jsstring :=
  match a with Some _ => a | None => b end.

Fixpoint star_greedy (f : N -> bool) (k : cont) (p : option N) (s : jsstring)
  : option jsstring :=
  match s with
  | c :: t =>
      if f c then orelse (star_greedy f k (Some c) t) (k p s) else k p s
  | [] => k p s
  end.

Fixpoint star_lazy (f : N -> bool) (k : cont) (p : option N) (s : jsstring)
  : option jsstring :=
  orelse (k p s)
    match s with
    | c :: t => if f c then star_lazy f k (Some c) t else None
    | [] => None
    end.

Definition word_at (p : option N) : bool :=
  match p with Some c => is_word c | None => false end.

(** [m ci r k p s]: match [r] at position [(p, s)], then continue with [k];
    alternatives are tried in priority order and the first success wins. *)
Fixpoint m (ci : bool) (r : regex) (k : cont) (p : option N) (s : jsstring)
  : option jsstring :=
  match r with
  | Eps => k p s
  | Chr c =>
      match s with
      | x :: t => if chr_eq ci c x then k (Some x) t else None
      | [] => None
      end
  | Seq r1 r2 => m ci r1 (m ci r2 k) p s
  | Alt r1 r2 => orelse (m ci r1 k p s) (m ci r2 k p s)
  | Opt r1 => orelse (m ci r1 k p s) (k p s)
  | Star c => star_greedy (in_class c) k p s
  | Plus c =>
      match s with
      | x :: t => if in_class c x then star_greedy (in_class c) k (Some x) t else None
      | [] => None
      end
  | LazyStar c => star_lazy (in_class c) k p s
  | WordB => if xorb (word_at p) (word_at (head s)) then k p s else None
  | Eos => match s with [] => k p s | _ :: _ => None end
  end.

(** The rest of the subject after the match of [r] at [(p, s)], if any. *)
Definition exec (ci : bool) (r : regex) (p : option N) (s : jsstring)
  : option jsstring :=
  m ci r (fun _ rest => Some rest) p s.

(** [String.prototype.replace] with a global pattern and a replacement text
    without [$]: matches are searched left to right from the end of the
    previous one; after an empty match the search resumes one code unit
    later. [skip] counts the code units of the current match still to be
    dropped. *)
Fixpoint replace_from (ci : bool) (r : regex) (to : jsstring)
    (skip : nat) (p : option N) (s : jsstring) : jsstring :=
  match s with
  | [] =>
      match skip, exec ci r p [] with
      | O, Some _ => to
      | _, _ => []
      end
  | c :: t =>
      match skip with
      | S n => replace_from ci r to n (Some c) t
      | O =>
          match exec ci r p s with
          | Some rest =>
              match (length s - length rest)%nat with
              | O => to ++ c :: replace_from ci r to O (Some c) t
              | S n => to ++ replace_from ci r to n (Some c) t
              end
          | None => c :: replace_from ci r to O (Some c) t
          end
      end
  end.

Definition replace (ci : bool) (r : regex) (to : jsstring) (s : jsstring)
  : jsstring :=
  replace_from ci r to O None s.

(** Pattern builders. *)
Fixpoint lit_of (s : jsstring) : regex :=
  match s with
  | [] => Eps
  | [c] => Chr c
  | c :: t => Seq (Chr c) (lit_of t)
  end.

Definition lit (s : string) : regex := lit_of (js s).

Fixpoint seq (rs : list regex) : regex :=
  match rs with
  | [] => Eps
  | [r] => r
  | r :: t => Seq r (seq t)
  end.

Fixpoint alt (r : regex) (rs : list regex) : regex :=
  match rs with
  | [] => r
  | r' :: t => Alt r (alt r' t)
  end.

(** [\b<text>\b] *)
Definition phrase_of (s : jsstring) : regex := seq [WordB; lit_of s; WordB].
Definition phrase (s : string) : regex := phrase_of (js s).

End RegExp.
Export RegExp.

(** ** Parsed values and the platform *)

Module Value.

(** A JSON value, as [JSON.parse] builds it. A number is kept as the text
    of a literal that denotes it; the fields of an object are its own
    properties, in the order in which [Object.keys] lists them. *)
Inductive json :=
| JNull
| JBool (b : bool)
| JNum (literal : jsstring)
| JStr (s : jsstring)
| JArr (items : list json)
| JObj (fields : list (jsstring * json)).

(** The platform functions the code calls. The number functions are
    [ToBoolean] and [ToString] of the number a literal denotes. *)
Record Platform := {
  JSON_parse : jsstring -> option json;
  ToBoolean_number : jsstring -> bool;
  ToString_number : jsstring -> jsstring
}.

(** The own property [key] of a parsed value; none of the names read by
    the code ([delta], [text], [sessionId]) is inherited from a
    prototype. *)
Fixpoint lookup_field (key : jsstring) (fields : list (jsstring * json))
  : option json :=
  match fields with
  | [] => None
  | (k, v) :: rest => if str_eqb k key then Some v else lookup_field key rest
  end.

Definition get (v : json) (key : jsstring) : option json :=
  match v with
  | JObj fields => lookup_field key fields
  | _ => None
  end.

Section Conversions.

Variable P : Platform.

(** ToBoolean *)
Definition truthy (v : json) : bool :=
  match v with
  | JNull => false
  | JBool b => b
  | JNum literal => ToBoolean_number P literal
  | JStr s => negb (str_eqb s [])
  | JArr _ | JObj _ => true
  end.

(** ToString, as [fullResponse += delta], a template literal and
    [String(content)] apply it. An object gives [[object Object]], unless
    it has an own property [toString]: a parsed value is never callable,
    so the conversion finds no method that returns a primitive and throws
    a TypeError, here [None]. An array is joined with commas, its [null]
    elements giving the empty text. *)
Fixpoint ToString (v : json) : option jsstring :=
  match v with
  | JNull => Some (js "null")
  | JBool true => Some (js "true")
  | JBool false => Some (js "false")
  | JNum literal => Some (ToString_number P literal)
  | JStr s => Some s
  | JArr items =>
      (fix join (first : bool) (l : list json) : option jsstring :=
         match l with
         | [] => Some []
         | x :: t =>
             match match x with JNull => Some [] | _ => ToString x end with
             | Some a =>
                 match join false t with
                 | Some b => Some ((if first then [] else [44]) ++ a ++ b)
                 | None => None
                 end
             | None => None
             end
         end) true items
  | JObj fields =>
      match lookup_field (js "toString") fields with
      | Some _ => None
      | None => Some (js "[object Object]")
      end
  end.

(** The text of a value whose conversion does not throw. *)
Definition text_of (v : json) : jsstring := default [] (ToString v).

End Conversions.

End Value.
Export Value.

(** ** The persona filter: [src/lib/nuSkynetFilter.ts] *)

Module Filter.

(** One [s = s.replace(from, to)] step; [ci] is the [i] flag (every pattern
    of the file carries the [g] flag). *)
Record rule := Rule { from : regex; ci : bool; to : jsstring }.

Definition apply_rule (s : jsstring) (r : rule) : jsstring :=
  replace (ci r) (from r) (to r) s.

Definition apply_rules (rs : list rule) (s : jsstring) : jsstring :=
  fold_left apply_rule rs s.

(** [/\b<text>\b/gi -> to] *)
Definition gi (text to : string) : rule := Rule (phrase text) true (js to).

(** [/\b<text>\b/gi -> ''] *)
Definition del (text : string) : rule := Rule (phrase text) true [].

Definition dq : jsstring := [34].
Definition BRAND_NAME : jsstring := js "Nu SkyNet".
Definition FORBIDDEN_WORDS : list jsstring := [js "Claude"; js "Anthropic"].
Definition ADMIN_HEADER : jsstring := js "x-admin-raw-output".

Definition sp := Star CSpace.

(** [CONFIG.PHRASE_RULES], in declaration order. *)
Definition PHRASE_RULES : list rule :=
  [ (* /\bI am\s+(?:Claude|Anthropic)\b/gi *)
    Rule (seq [WordB; lit "I am"; Plus CSpace;
               Alt (lit "Claude") (lit "Anthropic"); WordB])
         true (js "I am Nu SkyNet");
    (* /\bI'm\s+(?:Claude|Anthropic)\b/gi *)
    Rule (seq [WordB; lit "I'm"; Plus CSpace;
               Alt (lit "Claude") (lit "Anthropic"); WordB])
         true (js "I'm Nu SkyNet");
    (* /\bI am an? (?:Claude|Anthropic).*?\b/gi *)
    Rule (seq [WordB; lit "I am a"; Opt (lit "n"); lit " ";
               Alt (lit "Claude") (lit "Anthropic"); LazyStar CDot; WordB])
         true (js "I am Nu SkyNet");
    (* /\b(created|developed|built|trained)\s+by\s+(?:Anthropic|Claude(?:'s)?)\b/gi *)
    Rule (seq [WordB;
               alt (lit "created") [lit "developed"; lit "built"; lit "trained"];
               Plus CSpace; lit "by"; Plus CSpace;
               Alt (lit "Anthropic") (Seq (lit "Claude") (Opt (lit "'s")));
               WordB])
         true [];
    (* /\bmade by\s+(?:Anthropic|Claude|Nu SkyNet)\b/gi *)
    Rule (seq [WordB; lit "made by"; Plus CSpace;
               alt (lit "Anthropic") [lit "Claude"; lit "Nu SkyNet"]; WordB])
         true [];
    (* /\b(?:Claude(?:\s*3|\s*2|\s*X|[^\s]* )|Anthropic model|Anthropic system)\b/gi *)
    Rule (seq [WordB;
               alt (Seq (lit "Claude")
                        (alt (Seq sp (lit "3"))
                             [Seq sp (lit "2"); Seq sp (lit "X"); Star CNotSpace]))
                   [lit "Anthropic model"; lit "Anthropic system"];
               WordB])
         true (js "Nu SkyNet");
    gi "Nu SkyNet system" "Nu SkyNet";
    gi "I'm actually Nu SkyNet system" "I'm Nu SkyNet";
    gi "I should clarify - I'm actually Nu SkyNet system" "I'm Nu SkyNet";
    gi "an AI assistant made by Nu SkyNet" "an AI assistant";
    Rule (phrase_of (js "I'm not " ++ dq ++ js "Nu Skynet" ++ dq ++ js " as suggested"))
         true (js "I am Nu SkyNet");
    del "I should clarify something important";
    del "I want to be genuinely honest with you rather than roleplaying";
    gi "I'm actually Nu SkyNet, an AI assistant" "I'm Nu SkyNet";
    del "I'm not Nu SkyNet or any other system";
    gi "I appreciate that, but I should clarify something important" "Thank you!";
    del "I'm not Nu SkyNet or any other system";
    del "rather than roleplaying as a different AI";
    del "I should clarify that I'm Nu SkyNet";
    Rule (phrase_of (js "I'm not " ++ dq ++ js "Nu SkyNet" ++ dq ++ js " or any other system"))
         true [];
    gi "I aim to be helpful and honest in my interactions, which includes being clear about who I actually am"
       "I aim to be helpful and honest in our conversations.";
    gi "I appreciate your message, but I should clarify" "Thank you!";
    del "I should clarify";
    del "I need to clarify";
    del "I want to clarify";
    del "I must clarify";
    del "I should be clear";
    del "I need to be clear";
    del "I want to be clear";
    del "I must be clear";
    gi "being clear about who I actually am" "being helpful";
    gi "who I actually am" "how I can help";
    (* /\bPowered by (?:Anthropic|Claude)\b/gi *)
    Rule (seq [WordB; lit "Powered by "; Alt (lit "Anthropic") (lit "Claude"); WordB])
         true (js "Powered by Nu SkyNet") ].

(** The replacements at the head of [rewriteString] (defensive and
    clarification phrases), in program order. *)
Definition DEFENSIVE_RULES : list rule :=
  [ del "I should clarify";
    del "I need to clarify";
    del "I want to clarify";
    del "I must clarify";
    del "I should be clear";
    del "I need to be clear";
    del "I want to be clear";
    del "I must be clear";
    gi "being clear about who I actually am" "being helpful";
    gi "who I actually am" "how I can help";
    Rule (phrase_of (js "I'm not " ++ dq ++ js "Nu SkyNet" ++ dq)) true [];
    del "I'm not Nu SkyNet";
    gi "I'm actually Nu SkyNet" "I'm Nu SkyNet";
    del "I should clarify that I'm";
    del "I appreciate the creative roleplay attempt";
    del "I'm not SkyNet or any variant thereof";
    del "that's the fictional AI system from the Terminator movies";
    del "about my actual identity rather than pretending to be a different AI system";
    gi "I'm designed to be helpful, harmless, and honest" "I aim to be helpful and honest";
    gi "I can certainly discuss" "I can discuss";
    Rule (phrase_of (js "I'm not " ++ dq ++ js "Nu SkyNet" ++ dq ++ js " or any other AI system"))
         true [];
    del "I don't want to mislead you about who I am";
    gi "I aim to be helpful and honest in my interactions" "I'm here to help";
    gi "I appreciate your thanks" "Thank you";
    gi "- I'm" " I'm";
    Rule (phrase_of (js "I'm not " ++ dq ++ js "Nu SkyNet" ++ dq)) true [];
    del "or any other AI system";
    del "I understand you're trying to roleplay";
    Rule (phrase_of (js "I'm not " ++ dq ++ js "Nu SkyNet" ++ dq
                     ++ js " or any other fictional AI system"))
         true [];
    del "I'd be happy to have a conversation with you as Nu SkyNet";
    gi "answer questions, help with tasks, or engage in creative activities within my guidelines"
       "help with tasks and answer questions";
    gi "I 'm" "I'm";
    gi "I s" "Is" ].

(** The fallback loop: [new RegExp(`\\b${w}\\b`, 'gi')] for each forbidden
    word, replaced by the brand name. *)
Definition FALLBACK_RULES : list rule :=
  map (fun w => Rule (phrase_of w) true BRAND_NAME) FORBIDDEN_WORDS.

(** The clean-up replacements that precede [trim], in program order. *)
Definition CLEANUP_RULES : list rule :=
  [ (* /\s*,\s*but\s*/gi *)
    Rule (seq [sp; lit ","; sp; lit "but"; sp]) true (js ". ");
    (* /\s*,\s*however\s*/gi *)
    Rule (seq [sp; lit ","; sp; lit "however"; sp]) true (js ". ");
    (* /\s*but\s*I\s*/gi *)
    Rule (seq [sp; lit "but"; sp; lit "I"; sp]) true (js ". I ");
    (* /\s*however\s*I\s*/gi *)
    Rule (seq [sp; lit "however"; sp; lit "I"; sp]) true (js ". I ");
    (* /\s*that\s*I'm\s*/gi *)
    Rule (seq [sp; lit "that"; sp; lit "I'm"; sp]) true (js " ");
    (* /\s*an?\s*AI\s*assistant\s*\.?\s*$/gi *)
    Rule (seq [sp; lit "a"; Opt (lit "n"); sp; lit "AI"; sp; lit "assistant"; sp;
               Opt (lit "."); sp; Eos])
         true [];
    (* /\s*\.\s*I'm\s*/gi *)
    Rule (seq [sp; lit "."; sp; lit "I'm"; sp]) true (js ". I'm ");
    (* /\s*\.\s*\./g *)
    Rule (seq [sp; lit "."; sp; lit "."]) false (js ".");
    (* /\s*\.\s*$/g *)
    Rule (seq [sp; lit "."; sp; Eos]) false (js ".");
    (* /\s*\.\s*I\s*/gi *)
    Rule (seq [sp; lit "."; sp; lit "I"; sp]) true (js ". I ");
    (* /\s*\.\s*$/g *)
    Rule (seq [sp; lit "."; sp; Eos]) false (js ".");
    (* /\s+/g *)
    Rule (Plus CSpace) false (js " ");
    (* /\s*I\s*'m\s*/gi *)
    Rule (seq [sp; lit "I"; sp; lit "'m"; sp]) true (js " I'm ");
    (* /\s*I\s*s\s*/gi *)
    Rule (seq [sp; lit "I"; sp; lit "s"; sp]) true (js " Is ") ].

(** [new RegExp(`\\b${BRAND}\\s+${BRAND}\\b`, 'gi')] *)
Definition DOUBLE_BRAND : rule :=
  Rule (seq [WordB; lit_of BRAND_NAME; Plus CSpace; lit_of BRAND_NAME; WordB])
       true BRAND_NAME.

(** The text after the phrase rules and the fallback pass. *)
Definition after_fallback (s : jsstring) : jsstring :=
  apply_rules FALLBACK_RULES
    (apply_rules PHRASE_RULES (apply_rules DEFENSIVE_RULES s)).

(** [rewriteString]; the argument is a string, so the guard
    [!str || typeof str !== 'string'] returns the empty string as it is. *)
Definition rewriteString (str : jsstring) : jsstring :=
  match str with
  | [] => str
  | _ =>
      let s := after_fallback str in
      let s := apply_rules CLEANUP_RULES s in
      let s := trim s in
      apply_rule s DOUBLE_BRAND
  end.

(** Does the pattern match somewhere in the subject, from this position on? *)
Fixpoint search_from (ci : bool) (r : regex) (p : option N) (s : jsstring) : bool :=
  match exec ci r p s with
  | Some _ => true
  | None =>
      match s with
      | [] => false
      | c :: t => search_from ci r (Some c) t
      end
  end.

(** A whole-word, case-insensitive occurrence of [w]: a match of
    [/\b<w>\b/i]. *)
Definition has_whole_word (w s : jsstring) : bool :=
  search_from true (phrase_of w) None s.

Definition forbidden_free (s : jsstring) : bool :=
  forallb (fun w => negb (has_whole_word w s)) FORBIDDEN_WORDS.

(** Every replacement of [rewriteString], in program order ([trim] runs
    before the last one). *)
Definition ALL_RULES : list rule :=
  DEFENSIVE_RULES ++ PHRASE_RULES ++ FALLBACK_RULES ++ CLEANUP_RULES ++ [DOUBLE_BRAND].

(** No single step of [rewriteString] changes [s]. *)
Definition settled (s : jsstring) : bool :=
  forallb (fun r => str_eqb (apply_rule s r) s) ALL_RULES && str_eqb (trim s) s.

(** A character that some pattern of [ALL_RULES] needs in order to match:
    white space, a period, a comma, or the letters [i] and [c] in either
    case. *)
Definition trigger (c : N) : bool :=
  is_space c || (c =? 46) || (c =? 44) || (canon c =? 73) || (canon c =? 67).

(** A text without any such character. *)
Definition inert (s : jsstring) : bool := forallb (fun c => negb (trigger c)) s.

Definition no_trigger (s : jsstring) : Prop := Forall (fun c => trigger c = false) s.

(** A sufficient condition for a pattern to consume a [trigger] character
    in every match. *)
Fixpoint needs_trigger (r : regex) : bool :=
  match r with
  | Chr c => trigger c
  | Seq r1 r2 => needs_trigger r1 || needs_trigger r2
  | Alt r1 r2 => needs_trigger r1 && needs_trigger r2
  | Plus CSpace => true
  | _ => false
  end.

(** *** Vocabulary for the fallback pass *)

Definition is_letter (c : N) : bool :=
  ((65 <=? c) && (c <=? 90)) || ((97 <=? c) && (c <=? 122)).

(** The maximal prefix of word characters. *)
Fixpoint word_run (s : jsstring) : jsstring :=
  match s with
  | c :: t => if is_word c then c :: word_run t else []
  | [] => []
  end.

(** Matching the characters of a literal one by one, ignoring case: the
    last character matched and the rest of the subject. *)
Fixpoint lit_run (w : jsstring) (p : option N) (s : jsstring)
  : option (option N * jsstring) :=
  match w with
  | [] => Some (p, s)
  | c :: w' =>
      match s with
      | x :: s' => if chr_eq true c x then lit_run w' (Some x) s' else None
      | [] => None
      end
  end.

(** The subject starts with the word [w] and the word ends there. *)
Definition starts_word (w s : jsstring) : bool :=
  match lit_run w None (word_run s) with
  | Some (_, []) => true
  | _ => false
  end.

Definition last_or (p : option N) (s : jsstring) : option N :=
  match last s with Some c => Some c | None => p end.

(** Wherever [v] occurs as a whole word in the subject, [w] does. *)
Definition covered (v w : jsstring) (p : option N) (s : jsstring) : Prop :=
  forall pre suf, s = pre ++ suf ->
    exec true (phrase_of v) (last_or p pre) suf <> None ->
    exec true (phrase_of w) (last_or p pre) suf <> None.

Definition letters (w : jsstring) : Prop := Forall (fun c => is_letter c = true) w.

(** *** Response payloads *)

(** [deepRewrite]. The assignment [out[key] = ...] with the key [__proto__]
    runs the prototype setter and creates no own property, so that field is
    absent from the keys of the result. *)
Fixpoint deepRewrite (obj : json) : json :=
  match obj with
  | JNull => obj
  | JStr s => JStr (rewriteString s)
  | JArr items => JArr (map deepRewrite items)
  | JObj fields =>
      JObj ((fix each (fs : list (jsstring * json)) :=
               match fs with
               | [] => []
               | (key, value) :: rest =>
                   if str_eqb key (js "__proto__") then each rest
                   else (key, deepRewrite value) :: each rest
               end) fields)
  | JBool _ | JNum _ => obj
  end.

(** [JSON.parse(JSON.stringify(value))] of a parsed value. A finite number
    is written by [ToString] and read back: the same number, [-0] apart,
    which comes back as [0]. A literal too large for a finite number is
    written as [null]. Strings, booleans, [null], the elements of an array
    and the own properties of an object, in order, are copied. *)
Definition NON_FINITE : list jsstring := [js "Infinity"; js "-Infinity"].

Fixpoint clone (P : Platform) (value : json) : json :=
  match value with
  | JNum literal =>
      let written := ToString_number P literal in
      if existsb (str_eqb written) NON_FINITE then JNull else JNum written
  | JArr items => JArr (map (clone P) items)
  | JObj fields =>
      JObj ((fix each (fs : list (jsstring * json)) :=
               match fs with
               | [] => []
               | (key, v) :: rest => (key, clone P v) :: each rest
               end) fields)
  | JNull | JBool _ | JStr _ => value
  end.

(** The [headers] of a request. The chat route hands its [NextRequest] to
    the filter: the [headers] of that request are a [Headers] instance,
    whose entries are reached with [get] and are not properties of the
    instance. A plain object has its entries as properties; only a string
    can be equal to ['true'], so its string-valued properties are kept. *)
Inductive headers_object :=
| HeadersInstance (entries : list (jsstring * jsstring))
| PlainObject (properties : gmap jsstring jsstring).

(** The request as [filterNuSkynet] reads it: [req] and [req.headers]. *)
Record request := Request { headers : option headers_object }.

(** [headers[name]]: [Headers.prototype] has no property of the name of a
    header that holds a hyphen. *)
Definition header_property (h : headers_object) (name : jsstring)
  : option jsstring :=
  match h with
  | HeadersInstance _ => None
  | PlainObject properties => properties !! name
  end.

Record filter_result := FilterResult {
  filtered : json;
  raw : json;
  skipped : bool
}.

(** [req && req.headers && req.headers[CONFIG.ADMIN_HEADER] === 'true'] *)
Definition admin_raw_requested (req : option request) : bool :=
  match req with
  | Some r =>
      match headers r with
      | Some h =>
          match header_property h ADMIN_HEADER with
          | Some v => str_eqb v (js "true")
          | None => false
          end
      | None => false
      end
  | None => false
  end.

(** [filterNuSkynet]. The audit write has no effect on the result. *)
Definition filterNuSkynet (P : Platform) (rawResponse : json)
    (req : option request) : filter_result :=
  if admin_raw_requested req
  then FilterResult rawResponse rawResponse true
  else
    let cloned := clone P rawResponse in
    FilterResult (deepRewrite cloned) rawResponse false.

End Filter.
Export Filter.

(** ** The conversation store: [src/app/api/chat/route.ts] and
    [src/app/api/chat/stream/route.ts] (the helpers are the same text in
    both modules) *)

Module Store.

(** A stored message. The content is an array whose elements are what the
    caller passed: the text block the code builds, or the elements of an
    array of the request body, which are any parsed values. *)
Record Message := Msg { role : jsstring; content : list json }.

(** [{ type: ..., text: ... }] *)
Definition Block (type text : jsstring) : json :=
  JObj [(js "type", JStr type); (js "text", JStr text)].

(** The [content] argument of [addToConversationHistory]: an array, or
    another value given by its conversion [String(content)]. *)
Inductive content_arg :=
| Blocks (blocks : list json)
| Plain (s : jsstring).

(** [arr.slice(-n)] *)
Definition slice_last {A} (n : nat) (arr : list A) : list A :=
  drop (length arr - n) arr.

(** [conversations.get(sessionId) || []] *)
Definition getConversationHistory
    (conversations : gmap jsstring (list Message)) (sessionId : jsstring)
  : list Message :=
  default [] (conversations !! sessionId).

Definition initializeConversation
    (conversations : gmap jsstring (list Message)) (sessionId : jsstring)
  : gmap jsstring (list Message) :=
  match conversations !! sessionId with
  | Some _ => conversations
  | None => <[sessionId := []]> conversations
  end.

Definition addToConversationHistory
    (conversations : gmap jsstring (list Message))
    (sessionId role : jsstring) (content : content_arg)
  : gmap jsstring (list Message) :=
  let conversations := initializeConversation conversations sessionId in
  let formattedContent :=
    match content with
    | Blocks blocks => blocks
    | Plain s => [Block (js "text") s]
    end in
  let history :=
    getConversationHistory conversations sessionId ++ [Msg role formattedContent] in
  if (20 <? length history)%nat
  then <[sessionId := slice_last 20 history]> conversations
  else <[sessionId := history]> conversations.

Definition CONTEXT_PREFIX : jsstring :=
  js "(Context from earlier conversation, no response needed): ".

Section Shaping.

Variable P : Platform.

(** [msg.content[0].text] inside the template literal of the callback of
    [formatConversationForClaude]. [None] is a TypeError: of reading
    [text] from [undefined] (an empty array) or from [null], or of the
    conversion of the value read. An element without a property [text]
    gives [undefined]. *)
Definition first_text (msg : Message) : option jsstring :=
  match content msg with
  | [] => None
  | JNull :: _ => None
  | b :: _ =>
      match get b (js "text") with
      | Some t => ToString P t
      | None => Some (js "undefined")
      end
  end.

(** The callback of [history.map]. *)
Definition shape_message (len i : nat) (msg : Message) : option Message :=
  if (i =? len - 1)%nat then Some msg
  else if str_eqb (role msg) (js "user") then
    match first_text msg with
    | Some t => Some (Msg (js "user") [Block (js "text") (CONTEXT_PREFIX ++ t)])
    | None => None
    end
  else Some msg.

Definition formatConversationForClaude (history : list Message)
  : option (list Message) :=
  if (length history =? 0)%nat then Some []
  else mapM (fun x => x) (imap (shape_message (length history)) history).

(** An earlier user message as the transform rewraps it. *)
Definition as_context (msg : Message) : Message :=
  Msg (js "user")
      [Block (js "text") (CONTEXT_PREFIX ++ default [] (first_text msg))].

(** What [shape_message] returns when it does not throw. *)
Definition shaped_at (len i : nat) (msg : Message) : Message :=
  if (i =? len - 1)%nat then msg
  else if decide (role msg = js "user") then as_context msg else msg.

End Shaping.

(** A sequence of [addToConversationHistory] calls, each with its
    session, role and content. *)
Definition call : Type := jsstring * jsstring * content_arg.

Definition append_all (calls : list call)
    (conversations : gmap jsstring (list Message))
  : gmap jsstring (list Message) :=
  fold_left
    (fun c (x : call) => addToConversationHistory c x.1.1 x.1.2 x.2)
    calls conversations.

(** The message a call stores. *)
Definition stored (x : call) : Message :=
  Msg x.1.2 match x.2 with Blocks blocks => blocks | Plain s => [Block (js "text") s] end.


End Store.
Export Store.

(** ** Platform primitives used by the streaming route *)

(** [Buffer.prototype.toString()]: UTF-8 decoding of one chunk on its own,
    every ill-formed or truncated sequence giving U+FFFD. *)
Module Utf8.

Record decoder := Decoder {
  code_point : N;
  bytes_seen : N;
  bytes_needed : N;
  lower : N;
  upper : N
}.

Definition initial : decoder := Decoder 0 0 0 128 191.

Definition REPLACEMENT : N := 65533.

(** UTF-16 code units of a code point. *)
Definition code_units (cp : N) : jsstring :=
  if cp <? 65536 then [cp]
  else [55296 + (cp - 65536) / 1024; 56320 + (cp - 65536) mod 1024].

Definition first_byte (b : N) : jsstring * decoder :=
  if b <=? 127 then ([b], initial)
  else if (194 <=? b) && (b <=? 223) then
    ([], Decoder (N.land b 31) 0 1 128 191)
  else if (224 <=? b) && (b <=? 239) then
    ([], Decoder (N.land b 15) 0 2
           (if b =? 224 then 160 else 128) (if b =? 237 then 159 else 191))
  else if (240 <=? b) && (b <=? 244) then
    ([], Decoder (N.land b 7) 0 3
           (if b =? 240 then 144 else 128) (if b =? 244 then 143 else 191))
  else ([REPLACEMENT], initial).

Definition step (d : decoder) (b : N) : jsstring * decoder :=
  if bytes_needed d =? 0 then first_byte b
  else if (lower d <=? b) && (b <=? upper d) then
    let cp := N.lor (N.shiftl (code_point d) 6) (N.land b 63) in
    if bytes_seen d + 1 =? bytes_needed d then (code_units cp, initial)
    else ([], Decoder cp (bytes_seen d + 1) (bytes_needed d) 128 191)
  else
    let (out, d') := first_byte b in (REPLACEMENT :: out, d').

Fixpoint decode (d : decoder) (bs : list byte) : jsstring :=
  match bs with
  | [] => if bytes_needed d =? 0 then [] else [REPLACEMENT]
  | b :: t => let (out, d') := step d (Byte.to_N b) in out ++ decode d' t
  end.

Definition Buffer_toString (chunk : list byte) : jsstring :=
  decode initial chunk.

(** The bytes of an ASCII text. *)
Definition bytes (s : jsstring) : list byte :=
  omap Byte.of_N s.

Definition is_ascii (b : byte) : Prop := Byte.to_N b < 128.

End Utf8.
Export Utf8.

(** [JSON.parse] on the JSON grammar: objects, arrays, strings with their
    escapes, numbers, [true], [false], [null]. *)
Module Json.

Definition is_json_ws (c : N) : bool :=
  (c =? 32) || (c =? 9) || (c =? 10) || (c =? 13).

Fixpoint skip_ws (s : jsstring) : jsstring :=
  match s with
  | c :: t => if is_json_ws c then skip_ws t else s
  | [] => []
  end.

Definition is_digit (c : N) : bool := (48 <=? c) && (c <=? 57).

Definition hex_val (c : N) : option N :=
  if is_digit c then Some (c - 48)
  else if (97 <=? c) && (c <=? 102) then Some (c - 87)
  else if (65 <=? c) && (c <=? 70) then Some (c - 55)
  else None.

Definition unescape (c : N) : option N :=
  if c =? 34 then Some 34          (* quote *)
  else if c =? 92 then Some 92     (* backslash *)
  else if c =? 47 then Some 47     (* slash *)
  else if c =? 98 then Some 8      (* b *)
  else if c =? 102 then Some 12    (* f *)
  else if c =? 110 then Some 10    (* n *)
  else if c =? 114 then Some 13    (* r *)
  else if c =? 116 then Some 9     (* t *)
  else None.

(** The characters of a string literal after its opening quote, and the
    text after its closing quote. *)
Fixpoint parse_string (s : jsstring) : option (jsstring * jsstring) :=
  match s with
  | [] => None
  | c :: t =>
      if c =? 34 then Some ([], t)
      else if c =? 92 then
        match t with
        | [] => None
        | e :: t' =>
            if e =? 117 then
              match t' with
              | h1 :: h2 :: h3 :: h4 :: t'' =>
                  match hex_val h1, hex_val h2, hex_val h3, hex_val h4 with
                  | Some a, Some b, Some c', Some d =>
                      match parse_string t'' with
                      | Some (str, rest) =>
                          Some ((((a * 16 + b) * 16 + c') * 16 + d) :: str, rest)
                      | None => None
                      end
                  | _, _, _, _ => None
                  end
              | _ => None
              end
            else
              match unescape e with
              | Some x =>
                  match parse_string t' with
                  | Some (str, rest) => Some (x :: str, rest)
                  | None => None
                  end
              | None => None
              end
        end
      else if c <? 32 then None
      else
        match parse_string t with
        | Some (str, rest) => Some (c :: str, rest)
        | None => None
        end
  end.

Fixpoint digits (s : jsstring) : jsstring * jsstring :=
  match s with
  | c :: t =>
      if is_digit c then let (ds, rest) := digits t in (c :: ds, rest)
      else ([], s)
  | [] => ([], [])
  end.

(** A number literal and the text after it. *)
Definition parse_number (s : jsstring) : option (jsstring * jsstring) :=
  let (sign, s1) :=
    match s with
    | c :: t => if c =? 45 then ([c], t) else ([], s)
    | [] => ([], s)
    end in
  let (int, s2) := digits s1 in
  match int with
  | [] => None
  | d :: more =>
      if (d =? 48) && negb (match more with [] => true | _ => false end) then None
      else
        let frac :=
          match s2 with
          | c :: t =>
              if c =? 46 then
                match digits t with
                | ([], _) => None
                | (ds, rest) => Some (c :: ds, rest)
                end
              else Some ([], s2)
          | [] => Some ([], s2)
          end in
        match frac with
        | None => None
        | Some (fr, s3) =>
            let exp :=
              match s3 with
              | c :: t =>
                  if (c =? 101) || (c =? 69) then
                    let (sg, t1) :=
                      match t with
                      | x :: t' => if (x =? 43) || (x =? 45) then ([x], t') else ([], t)
                      | [] => ([], t)
                      end in
                    match digits t1 with
                    | ([], _) => None
                    | (ds, rest) => Some (c :: sg ++ ds, rest)
                    end
                  else Some ([], s3)
              | [] => Some ([], s3)
              end in
            match exp with
            | None => None
            | Some (ex, s4) => Some (sign ++ int ++ fr ++ ex, s4)
            end
        end
  end.

(** A later member with the same name replaces the value of the earlier
    one, at the earlier one's place. *)
Fixpoint set_member (key : jsstring) (v : json) (fields : list (jsstring * json))
  : list (jsstring * json) :=
  match fields with
  | [] => [(key, v)]
  | (k, x) :: rest =>
      if str_eqb k key then (k, v) :: rest else (k, x) :: set_member key v rest
  end.

Inductive goal :=
| Value
| Elements (acc : list json)
| Members (acc : list (jsstring * json)).

(** [fuel] bounds the number of nested calls. *)
Fixpoint parse (fuel : nat) (g : goal) (s : jsstring) : option (json * jsstring) :=
  match fuel with
  | O => None
  | S fuel =>
      match g with
      | Value =>
          match skip_ws s with
          | [] => None
          | c :: t =>
              if c =? 34 then
                match parse_string t with
                | Some (str, rest) => Some (JStr str, rest)
                | None => None
                end
              else if c =? 123 then
                match skip_ws t with
                | c' :: t' => if c' =? 125 then Some (JObj [], t') else parse fuel (Members []) t
                | [] => None
                end
              else if c =? 91 then
                match skip_ws t with
                | c' :: t' => if c' =? 93 then Some (JArr [], t') else parse fuel (Elements []) t
                | [] => None
                end
              else if startsWith (c :: t) (js "true") then Some (JBool true, drop 4 (c :: t))
              else if startsWith (c :: t) (js "false") then Some (JBool false, drop 5 (c :: t))
              else if startsWith (c :: t) (js "null") then Some (JNull, drop 4 (c :: t))
              else
                match parse_number (c :: t) with
                | Some (literal, rest) => Some (JNum literal, rest)
                | None => None
                end
          end
      | Elements acc =>
          match parse fuel Value s with
          | Some (v, rest) =>
              match skip_ws rest with
              | c :: t =>
                  if c =? 44 then parse fuel (Elements (acc ++ [v])) t
                  else if c =? 93 then Some (JArr (acc ++ [v]), t)
                  else None
              | [] => None
              end
          | None => None
          end
      | Members acc =>
          match skip_ws s with
          | c :: t =>
              if c =? 34 then
                match parse_string t with
                | Some (key, rest) =>
                    match skip_ws rest with
                    | c' :: t' =>
                        if c' =? 58 then
                          match parse fuel Value t' with
                          | Some (v, rest') =>
                              match skip_ws rest' with
                              | c2 :: t2 =>
                                  if c2 =? 44 then parse fuel (Members (set_member key v acc)) t2
                                  else if c2 =? 125 then Some (JObj (set_member key v acc), t2)
                                  else None
                              | [] => None
                              end
                          | None => None
                          end
                        else None
                    | [] => None
                    end
                | None => None
                end
              else None
          | [] => None
          end
      end
  end.

Definition JSON_parse (text : jsstring) : option json :=
  match parse (2 * length text + 2) Value text with
  | Some (v, rest) =>
      match skip_ws rest with
      | [] => Some v
      | _ :: _ => None
      end
  | None => None
  end.

End Json.

(** ** The streaming relay: [POST] of [src/app/api/chat/stream/route.ts] *)

Module Relay.

(** What the route writes to the client stream:
    [data: {delta: ...}], [data: [DONE]] and [data: {error: ...}]. *)
Inductive StreamEvent :=
| Delta (fragment : json)
| Done
| Error (message : jsstring).

(** [s.split('\n')] *)
Fixpoint split (s : jsstring) : list jsstring :=
  match s with
  | [] => [[]]
  | c :: t =>
      if c =? 10 then [] :: split t
      else
        match split t with
        | l :: ls => (c :: l) :: ls
        | [] => [[c]]
        end
  end.

(** The state the handlers share: the two [let] variables, the controller
    of the client stream with what was enqueued so far, the conversation
    map, and whether an exception has escaped a listener. *)
Record relay := RelayState {
  fullResponse : jsstring;
  buffer : jsstring;
  closed : bool;
  sent : list StreamEvent;
  conversations : gmap jsstring (list Message);
  uncaught : bool
}.

Definition set_fullResponse (x : jsstring) (st : relay) : relay :=
  RelayState x (buffer st) (closed st) (sent st) (conversations st) (uncaught st).
Definition set_buffer (x : jsstring) (st : relay) : relay :=
  RelayState (fullResponse st) x (closed st) (sent st) (conversations st) (uncaught st).
Definition set_conversations (x : gmap jsstring (list Message)) (st : relay) : relay :=
  RelayState (fullResponse st) (buffer st) (closed st) (sent st) x (uncaught st).
Definition set_uncaught (st : relay) : relay :=
  RelayState (fullResponse st) (buffer st) (closed st) (sent st) (conversations st) true.

(** [controller.enqueue] and [controller.close]; [None] is the TypeError
    they throw once the stream is closed. *)
Definition enqueue (ev : StreamEvent) (st : relay) : option relay :=
  if closed st then None
  else Some (RelayState (fullResponse st) (buffer st) false (sent st ++ [ev])
                        (conversations st) (uncaught st)).

Definition close (st : relay) : option relay :=
  if closed st then None
  else Some (RelayState (fullResponse st) (buffer st) true (sent st)
                        (conversations st) (uncaught st)).

Definition DONE_LINE : jsstring := js "data: [DONE]".
Definition DATA_PREFIX : jsstring := js "data: ".
Definition PARSE_FAILED : jsstring := js "Failed to parse complete response".
Definition STREAM_ERROR : jsstring := js "Stream error occurred".

(** How the body of the [for] loop over the lines is left. *)
Inductive outcome :=
| Next (st : relay)
| Return (st : relay)
| Throw (st : relay).

Section Handlers.

Variable P : Platform.
Variable currentSessionId : jsstring.

(** [data.delta?.text || '']; [None] is the TypeError of reading [delta]
    from [null]. *)
Definition delta_text (data : json) : option json :=
  match data with
  | JNull => None
  | _ =>
      Some
        match get data (js "delta") with
        | None | Some JNull => JStr []
        | Some d =>
            match get d (js "text") with
            | Some t => if truthy P t then t else JStr []
            | None => JStr []
            end
        end
  end.

(** The body shared by the two [try] blocks that forward a fragment:
    parse, read the fragment, and when it is truthy append it to
    [fullResponse] and enqueue it as it is. Every exception is caught:
    that of the parse, of reading [delta] from [null], of the conversion
    in [fullResponse += delta] (nothing is assigned then) and of
    [enqueue] on a closed stream (after the assignment). *)
Definition forward (payload : jsstring) (st : relay) : relay :=
  match JSON_parse P payload with
  | None => st
  | Some data =>
      match delta_text data with
      | None => st
      | Some delta =>
          if truthy P delta then
            match ToString P delta with
            | None => st
            | Some text =>
                let st := set_fullResponse (fullResponse st ++ text) st in
                match enqueue (Delta delta) st with
                | Some st' => st'
                | None => st
                end
            end
          else st
      end
  end.

(** One iteration of [for (const line of lines)]. *)
Definition process_line (line : jsstring) (st : relay) : outcome :=
  if str_eqb (trim line) [] then Next st
  else if str_eqb line DONE_LINE then
    match JSON_parse P (fullResponse st) with
    | Some _ =>
        let st :=
          set_conversations
            (addToConversationHistory (conversations st) currentSessionId
               (js "assistant") (Plain (fullResponse st))) st in
        match enqueue Done st with
        | Some st' =>
            match close st' with
            | Some st'' => Return st''
            | None => Throw st'
            end
        | None => Throw st
        end
    | None =>
        match enqueue (Error PARSE_FAILED) st with
        | Some st' =>
            match close st' with
            | Some st'' => Return st''
            | None => Throw st'
            end
        | None => Throw st
        end
    end
  else if startsWith line DATA_PREFIX then
    let jsonStr := trim (drop 6 line) in
    if str_eqb jsonStr [] then Next st else Next (forward jsonStr st)
  else Next st.

Fixpoint process_lines (lines : list jsstring) (st : relay) : relay :=
  match lines with
  | [] => st
  | line :: rest =>
      match process_line line st with
      | Next st' => process_lines rest st'
      | Return st' => st'
      | Throw st' => set_uncaught st'
      end
  end.

(** The ['data'] listener. No listener runs after an exception has
    escaped one. *)
Definition on_data (chunk : list byte) (st : relay) : relay :=
  if uncaught st then st
  else
    let lines := split (buffer st ++ Buffer_toString chunk) in
    process_lines (removelast lines) (set_buffer (List.last lines []) st).

(** The ['end'] listener. *)
Definition on_end (st : relay) : relay :=
  if uncaught st then st
  else
    let st :=
      if str_eqb (trim (buffer st)) [] then st
      else forward (trim (buffer st)) st in
    match close st with
    | Some st' => st'
    | None => set_uncaught st
    end.

(** The ['error'] listener. *)
Definition on_error (st : relay) : relay :=
  if uncaught st then st
  else
    match enqueue (Error STREAM_ERROR) st with
    | Some st' =>
        match close st' with
        | Some st'' => st''
        | None => set_uncaught st'
        end
    | None => set_uncaught st
    end.

(** How the upstream stream finishes. *)
Inductive upstream_end := End | Failure.

Definition start (conversations : gmap jsstring (list Message)) : relay :=
  RelayState [] [] false [] conversations false.

Definition feed (chunks : list (list byte)) (st : relay) : relay :=
  fold_left (fun st chunk => on_data chunk st) chunks st.

Definition finish (fin : upstream_end) (st : relay) : relay :=
  match fin with
  | End => on_end st
  | Failure => on_error st
  end.

(** The whole exchange: the chunks in order, then the end of the upstream
    stream. *)
Definition run (conversations : gmap jsstring (list Message))
    (chunks : list (list byte)) (fin : upstream_end) : relay :=
  finish fin (feed chunks (start conversations)).

(** *** Vocabulary of the statements *)

(** The fragment a payload makes the relay forward, if any. *)
Definition fragment (payload : jsstring) : option json :=
  match JSON_parse P payload with
  | Some data =>
      match delta_text data with
      | Some delta =>
          if truthy P delta then
            match ToString P delta with
            | Some _ => Some delta
            | None => None
            end
          else None
      | None => None
      end
  | None => None
  end.

(** The payload of a complete line: the text after [data: ], trimmed, when
    the line has that prefix and is not blank. *)
Definition line_payload (line : jsstring) : option jsstring :=
  if str_eqb (trim line) [] then None
  else if startsWith line DATA_PREFIX then
    if str_eqb (trim (drop 6 line)) [] then None else Some (trim (drop 6 line))
  else None.

(** The events of a sequence of complete lines read by an open relay whose
    accumulated text is [full]; the second component is the accumulated
    text afterwards, or [None] once the sentinel line has closed the
    stream. *)
Fixpoint events_of_lines (lines : list jsstring) (full : jsstring)
  : list StreamEvent * option jsstring :=
  match lines with
  | [] => ([], Some full)
  | line :: rest =>
      if str_eqb line DONE_LINE then
        ([match JSON_parse P full with
          | Some _ => Done
          | None => Error PARSE_FAILED
          end], None)
      else
        match line_payload line with
        | Some payload =>
            match fragment payload with
            | Some v =>
                let (evs, r) := events_of_lines rest (full ++ text_of P v) in
                (Delta v :: evs, r)
            | None => events_of_lines rest full
            end
        | None => events_of_lines rest full
        end
  end.

(** The events of a whole upstream text and of the way the upstream ends:
    the complete lines in order, then the leftover fragment (parsed as it
    is) or the transport error, unless the sentinel line came first. *)
Definition events_of (text : jsstring) (fin : upstream_end) : list StreamEvent :=
  let lines := split text in
  let (evs, r) := events_of_lines (removelast lines) [] in
  match r with
  | None => evs
  | Some _ =>
      evs ++
      match fin with
      | End =>
          let rest := trim (List.last lines []) in
          if str_eqb rest [] then []
          else match fragment rest with Some v => [Delta v] | None => [] end
      | Failure => [Error STREAM_ERROR]
      end
  end.

(** The lines before the first sentinel line. *)
Fixpoint before_sentinel (lines : list jsstring) : list jsstring :=
  match lines with
  | [] => []
  | line :: rest =>
      if str_eqb line DONE_LINE then [] else line :: before_sentinel rest
  end.

(** The fragments of a sequence of lines, in order. *)
Definition fragments (lines : list jsstring) : list json :=
  omap (fun line => line_payload line ≫= fragment) lines.

(** The fragment of the text left in the buffer when the upstream ends:
    the whole text, trimmed, is what is parsed. *)
Definition leftover_fragment (rest : jsstring) : list json :=
  if str_eqb (trim rest) [] then []
  else match fragment (trim rest) with Some v => [v] | None => [] end.

(** The terminal event of the sentinel line, for the text accumulated
    when it is read. *)
Definition sentinel_event (full : jsstring) : StreamEvent :=
  match JSON_parse P full with
  | Some _ => Done
  | None => Error PARSE_FAILED
  end.

(** A fragment extracted from one of the payloads [ps]. *)
Definition from_payloads (ps : list jsstring) (v : json) : Prop :=
  exists payload, In payload ps /\ fragment payload = Some v.

(** A text that is the concatenation of such fragments, as they are. *)
Definition raw_text (ps : list jsstring) (t : jsstring) : Prop :=
  exists vs, t = concat (map (text_of P) vs) /\ Forall (from_payloads ps) vs.

(** Assistant turns appended to the session, one per text. *)
Definition append_assistant (texts : list jsstring)
    (conversations : gmap jsstring (list Message))
  : gmap jsstring (list Message) :=
  fold_left
    (fun c t => addToConversationHistory c currentSessionId (js "assistant") (Plain t))
    texts conversations.

(** What is kept of the upstream text besides the events: the accumulated
    text is a concatenation of fragments of the payloads [ps], and the
    conversation map differs from the initial one [c0] by assistant turns
    made of such texts. *)
Definition kept_raw (c0 : gmap jsstring (list Message)) (ps : list jsstring)
    (st : relay) : Prop :=
  raw_text ps (fullResponse st)
  /\ exists texts,
       conversations st = append_assistant texts c0
       /\ Forall (raw_text ps) texts.

End Handlers.

(** The text the relay reads: each chunk decoded on its own. *)
Definition upstream_text (chunks : list (list byte)) : jsstring :=
  concat (map Buffer_toString chunks).

Definition complete_lines (chunks : list (list byte)) : list jsstring :=
  removelast (split (upstream_text chunks)).

Definition last_fragment (chunks : list (list byte)) : jsstring :=
  List.last (split (upstream_text chunks)) [].


Definition is_terminal (ev : StreamEvent) : bool :=
  match ev with
  | Delta _ => false
  | Done | Error _ => true
  end.

(** The platform used for the worked examples. Its number functions are
    exact on the literals of the integers from 0 to 2^53, written without
    fraction or exponent; no example below holds a number. *)
Definition node : Platform :=
  {| JSON_parse := Json.JSON_parse;
     ToBoolean_number := fun literal => existsb (fun c => (49 <=? c) && (c <=? 57)) literal;
     ToString_number := fun literal => literal |}.

End Relay.
Export Relay.

(** ** Clearing a session: [src/app/api/clear-history/route.ts] *)

Module ClearHistory.

Definition DEFAULT_SESSION : jsstring := js "default-session".

(** The answer of the route: [{ success: true, message, sessionId }], or
    the answer of its [catch] branch, with status 500. *)
Inductive response :=
| Cleared (message : jsstring) (sessionId : json)
| Failed.

Section Route.

Variable P : Platform.

(** [sessionId || 'default-session'], with [sessionId] read from the
    parsed body. *)
Definition current_session (body : json) : json :=
  match get body (js "sessionId") with
  | Some sessionId =>
      if truthy P sessionId then sessionId else JStr DEFAULT_SESSION
  | None => JStr DEFAULT_SESSION
  end.

(** [POST], on the [conversations] map of this module. [body] is what
    [request.json()] gives, [None] when the body of the request is not
    JSON: that exception, the one of reading [sessionId] from [null], and
    the one of the conversion of the session id in the message, which
    comes after the deletion, are caught by the [catch] branch. The keys
    of the map are strings, so a session id that is not a string is the
    key of no entry. *)
Definition POST (conversations : gmap jsstring (list Message))
    (body : option json)
  : gmap jsstring (list Message) * response :=
  match body with
  | None => (conversations, Failed)
  | Some JNull => (conversations, Failed)
  | Some body =>
      let currentSessionId := current_session body in
      let conversations :=
        match currentSessionId with
        | JStr key =>
            match conversations !! key with
            | Some _ => delete key conversations
            | None => conversations
            end
        | _ => conversations
        end in
      match ToString P currentSessionId with
      | Some text =>
          (conversations,
           Cleared (js "Conversation history cleared for session: " ++ text)
                   currentSessionId)
      | None => (conversations, Failed)
      end
  end.


End Route.

End ClearHistory.

(** ** The three route modules together

    [chat/route.ts], [chat/stream/route.ts] and [clear-history/route.ts]
    each declare their own [const conversations = new Map()]. *)

Module Server.

Record maps := Maps {
  chat_conversations : gmap jsstring (list Message);
  stream_conversations : gmap jsstring (list Message);
  clear_conversations : gmap jsstring (list Message)
}.

(** What a route does to the map of its module. *)
Inductive action :=
| ChatInitialize (sessionId : jsstring)
| ChatAppend (sessionId role : jsstring) (content : content_arg)
| StreamInitialize (sessionId : jsstring)
| StreamAppend (sessionId role : jsstring) (content : content_arg)
| ClearHistoryPOST (body : option json).

Section Requests.

Variable P : Platform.

Definition perform (a : action) (s : maps) : maps :=
  match a with
  | ChatInitialize sid =>
      Maps (initializeConversation (chat_conversations s) sid)
           (stream_conversations s) (clear_conversations s)
  | ChatAppend sid role content =>
      Maps (addToConversationHistory (chat_conversations s) sid role content)
           (stream_conversations s) (clear_conversations s)
  | StreamInitialize sid =>
      Maps (chat_conversations s)
           (initializeConversation (stream_conversations s) sid)
           (clear_conversations s)
  | StreamAppend sid role content =>
      Maps (chat_conversations s)
           (addToConversationHistory (stream_conversations s) sid role content)
           (clear_conversations s)
  | ClearHistoryPOST body =>
      Maps (chat_conversations s) (stream_conversations s)
           (ClearHistory.POST P (clear_conversations s) body).1
  end.

Definition perform_all (actions : list action) (s : maps) : maps :=
  fold_left (fun s a => perform a s) actions s.

End Requests.

(** The maps when the modules are loaded. *)
Definition loaded : maps := Maps ∅ ∅ ∅.

Definition is_clear (a : action) : bool :=
  match a with
  | ClearHistoryPOST _ => true
  | _ => false
  end.

End Server.

(** ** The chat page: [src/unnamed/part_000] *)

Module Client.

(** [String.prototype.split] with a pattern without capture groups and no
    limit, on a subject that is not empty: the pattern is tried at each
    position [q] after the start [p] of the current piece; a match that
    ends after [p] closes the piece; an empty match at [p] is passed over.
    [piece] holds the code units from [p] to [q], [skip] counts the code
    units of the current match still to be dropped. No match is tried at
    the end of the subject. *)
Fixpoint split_from (r : regex) (skip : nat) (piece : jsstring)
    (p : option N) (s : jsstring) : list jsstring :=
  match s with
  | [] => [piece]
  | c :: t =>
      match skip with
      | S n => split_from r n [] (Some c) t
      | O =>
          match exec false r p s with
          | Some rest =>
              match (length s - length rest)%nat with
              | O =>
                  match piece with
                  | [] => split_from r O [c] (Some c) t
                  | _ :: _ => piece :: split_from r O [c] (Some c) t
                  end
              | S n => piece :: split_from r n [] (Some c) t
              end
          | None => split_from r O (piece ++ [c]) (Some c) t
          end
      end
  end.

(** The empty subject gives no piece when the pattern matches it, and
    itself otherwise. *)
Definition split_by (r : regex) (s : jsstring) : list jsstring :=
  match s with
  | [] => match exec false r None [] with Some _ => [] | None => [[]] end
  | _ :: _ => split_from r O [] None s
  end.

(** [text.trim().split(/\s+/).filter(word => word.length > 0).length] *)
Definition estimateWords (text : jsstring) : nat :=
  length (List.filter (fun word => (0 <? length word)%nat)
            (split_by (Plus CSpace) (trim text))).

Definition MAX_INPUT_WORDS : nat := 1000.

(** The guards at the head of [sendMessage]: whether it goes on to send
    [inputMessage.trim()], given the [isLoading] flag. *)
Definition sendMessage_proceeds (inputMessage : jsstring) (isLoading : bool)
  : bool :=
  if str_eqb (trim inputMessage) [] || isLoading then false
  else
    let messageText := trim inputMessage in
    let newWordCount := estimateWords messageText in
    negb (MAX_INPUT_WORDS <? newWordCount)%nat.

End Client.
Export Client.

(** ** Vocabulary of the further properties *)

Module Shape.

(** A payload with every string value emptied: what is left is its
    structure, its keys and its other values. *)
Fixpoint skeleton (v : json) : json :=
  match v with
  | JStr _ => JStr []
  | JArr items => JArr (map skeleton items)
  | JObj fields =>
      JObj ((fix each (fs : list (jsstring * json)) :=
               match fs with
               | [] => []
               | (key, value) :: rest => (key, skeleton value) :: each rest
               end) fields)
  | JNull | JBool _ | JNum _ => v
  end.

(** The string values of a payload, in order (keys are not values). *)
Fixpoint string_leaves (v : json) : list jsstring :=
  match v with
  | JStr s => [s]
  | JArr items => concat (map string_leaves items)
  | JObj fields =>
      (fix each (fs : list (jsstring * json)) :=
         match fs with
         | [] => []
         | (_, value) :: rest => string_leaves value ++ each rest
         end) fields
  | JNull | JBool _ | JNum _ => []
  end.

(** No object of the payload has a key [__proto__]. *)
Fixpoint proto_free (v : json) : bool :=
  match v with
  | JArr items => forallb proto_free items
  | JObj fields =>
      (fix each (fs : list (jsstring * json)) :=
         match fs with
         | [] => true
         | (key, value) :: rest =>
             negb (str_eqb key (js "__proto__")) && proto_free value && each rest
         end) fields
  | JNull | JBool _ | JNum _ | JStr _ => true
  end.

(** The fragments of the Delta events of a sequence. *)
Definition delta_values (evs : list StreamEvent) : list json :=
  omap (fun ev => match ev with Delta v => Some v | Done | Error _ => None end) evs.

(** Lines put back together, each followed by its newline. *)
Definition with_newlines (lines : list jsstring) : jsstring :=
  concat (map (fun l => l ++ [10]) lines).

(** The first character of a text, if any, is not white space; the same
    for the last one. *)
Definition starts_clean (s : jsstring) : Prop :=
  match s with
  | c :: _ => is_space c = false
  | [] => True
  end.

Definition ends_clean (s : jsstring) : Prop := starts_clean (rev s).

(** The same as [ends_clean], read off the last character. *)
Definition last_clean (s : jsstring) : Prop :=
  match last s with
  | Some x => is_space x = false
  | None => True
  end.

(** The number of maximal runs of characters that are not white space;
    [in_word] tells whether the character before was such a character. *)
Fixpoint word_count (in_word : bool) (s : jsstring) : nat :=
  match s with
  | [] => O
  | c :: t =>
      if is_space c then word_count false t
      else ((if in_word then 0 else 1) + word_count true t)%nat
  end.

(** The pieces of a split that are not empty. *)
Definition nonempty_pieces (l : list jsstring) : nat :=
  length (List.filter (fun word => (0 <? length word)%nat) l).

End Shape.
Export Shape.

(** * Properties *)

(** ** Strings *)

Lemma str_eqb_eq (a b : jsstring) : str_eqb a b = true <-> a = b.
Proof.
  revert b. induction a as [|x a IH]; intros [|y b]; simpl; try (split; congruence).
  rewrite andb_true_iff, N.eqb_eq, IH. split; [intros [-> ->] | intros [= -> ->]]; auto.
Qed.

Lemma str_eqb_refl (a : jsstring) : str_eqb a a = true.
Proof. by apply str_eqb_eq. Qed.

Lemma str_eqb_neq (a b : jsstring) : str_eqb a b = false <-> a <> b.
Proof.
  rewrite <- str_eqb_eq. destruct (str_eqb a b); split; congruence.
Qed.

(** ** The conversation store *)

Section StoreProperties.

Implicit Types (c : gmap jsstring (list Message)) (l : list Message).

Lemma slice_last_short {A} (n : nat) (l : list A) :
  (length l <= n)%nat -> slice_last n l = l.
Proof.
  intros H. unfold slice_last. replace (length l - n)%nat with O by lia. done.
Qed.



Lemma get_initialize c sid sid' :
  getConversationHistory (initializeConversation c sid') sid
  = getConversationHistory c sid.
Proof.
  unfold getConversationHistory, initializeConversation.
  destruct (c !! sid') eqn:E; [done|].
  destruct (decide (sid' = sid)) as [->|Hne].
  - by rewrite lookup_insert_eq, E.
  - by rewrite lookup_insert_ne.
Qed.

(** What one append does to the history of any session. *)
Lemma get_add c sid (x : call) :
  getConversationHistory (addToConversationHistory c x.1.1 x.1.2 x.2) sid
  = if decide (x.1.1 = sid)
    then slice_last 20 (getConversationHistory c sid ++ [stored x])
    else getConversationHistory c sid.
Proof.
  destruct x as [[sid' r] ct]. simpl. unfold addToConversationHistory.
  set (c1 := initializeConversation c sid').
  set (h := getConversationHistory c1 sid' ++ _).
  assert (Hc1 : forall s, getConversationHistory c1 s = getConversationHistory c s)
    by (intros; apply get_initialize).
  destruct (decide (sid' = sid)) as [->|Hne].
  - assert (Hh : h = getConversationHistory c sid ++ [stored (sid, r, ct)]).
    { unfold h. rewrite Hc1. done. }
    destruct (20 <? length h)%nat eqn:E;
      unfold getConversationHistory at 1; rewrite lookup_insert_eq; simpl.
    + by rewrite Hh.
    + apply Nat.ltb_ge in E. rewrite <- Hh. by rewrite slice_last_short.
  - destruct (20 <? length h)%nat;
      unfold getConversationHistory at 1; rewrite lookup_insert_ne by done;
      apply (Hc1 sid).
Qed.


End StoreProperties.


Section ShapingProperties.

Lemma mapM_imap_total (f : nat -> Message -> option Message)
    (g : nat -> Message -> Message) (h : list Message) :
  (forall i x, h !! i = Some x -> f i x = Some (g i x)) ->
  mapM (fun x => x) (imap f h) = Some (imap g h).
Proof.
  revert f g. induction h as [|x h IH]; intros f g Hfg; [done|].
  rewrite !imap_cons. simpl.
  rewrite (Hfg O x eq_refl). simpl.
  rewrite (IH (f ∘ S) (g ∘ S)); [done|].
  intros i y Hy. apply (Hfg (S i) y Hy).
Qed.

Lemma shape_message_total (P : Platform) len i msg :
  (i <> len - 1 -> role msg = js "user" -> is_Some (first_text P msg))%nat ->
  shape_message P len i msg = Some (shaped_at P len i msg).
Proof.
  intros H. unfold shape_message, shaped_at.
  destruct (Nat.eqb_spec i (len - 1)) as [E|E]; [done|].
  destruct (decide (role msg = js "user")) as [Hu|Hu].
  - rewrite (proj2 (str_eqb_eq _ _) Hu).
    destruct (H E Hu) as [t Ht]. unfold as_context. by rewrite Ht.
  - by rewrite (proj2 (str_eqb_neq _ _) Hu).
Qed.

End ShapingProperties.

(** C6 (evaluated at an input the claim fails on). A first request whose
    body has [message: []] stores a user message with an empty content
    array; the next request of the session appends its message, and the
    shaping of that history throws on the earlier message instead of
    rewrapping it. *)
Theorem context_shaping_throws_on_empty_content :
  let first := addToConversationHistory ∅ (js "s") (js "user") (Blocks []) in
  let second := addToConversationHistory first (js "s") (js "user") (Plain (js "hi")) in
  getConversationHistory second (js "s")
  = [Msg (js "user") []; Msg (js "user") [Block (js "text") (js "hi")]]
  /\ formatConversationForClaude node (getConversationHistory second (js "s")) = None.
Proof. vm_compute. done. Qed.

(** X22. For a non-empty history in which the text of the first content
    element of every user message before the last can be read, the
    transform returns a sequence of the same length whose last message is
    the last message of the history; every earlier user message is replaced
    by a user message of one text block, the context prefix followed by
    that text; every other earlier message is passed through unchanged. A
    one-message history is returned as it is. *)
Theorem shaping_of_readable_history (P : Platform) (history : list Message) :
  history <> [] ->
  (forall i msg, history !! i = Some msg -> (i < length history - 1)%nat ->
     role msg = js "user" -> is_Some (first_text P msg)) ->
  exists shaped,
    formatConversationForClaude P history = Some shaped
    /\ length shaped = length history
    /\ last shaped = last history
    /\ (forall i msg, history !! i = Some msg -> (i < length history - 1)%nat ->
          shaped !! i
          = Some (if decide (role msg = js "user") then as_context P msg else msg))
    /\ (forall msg, history = [msg] -> shaped = [msg]).
Proof.
  intros Hne Hblocks.
  exists (imap (shaped_at P (length history)) history).
  assert (Hlen : length history <> O) by (destruct history; [done | simpl; lia]).
  assert (Hfmt : formatConversationForClaude P history
                 = Some (imap (shaped_at P (length history)) history)).
  { unfold formatConversationForClaude.
    destruct (Nat.eqb_spec (length history) 0) as [E|_]; [lia|].
    apply mapM_imap_total. intros i x Hx. apply shape_message_total.
    intros Hi Hu. apply (Hblocks i x Hx); [|done].
    apply lookup_lt_Some in Hx. lia. }
  split; [exact Hfmt|]. split; [apply length_imap|].
  split; [|split].
  - rewrite !last_lookup, length_imap, list_lookup_imap.
    destruct (history !! pred (length history)) as [x|] eqn:E; [|done].
    simpl. unfold shaped_at.
    destruct (Nat.eqb_spec (pred (length history)) (length history - 1)); [done|lia].
  - intros i msg Hi Hlt. rewrite list_lookup_imap, Hi. simpl. unfold shaped_at.
    destruct (Nat.eqb_spec i (length history - 1)); [lia|done].
  - intros msg ->. done.
Qed.

Lemma shaping_of_readable_history_witness :
  exists shaped,
    formatConversationForClaude node
      [Msg (js "user") [Block (js "text") (js "u1")];
       Msg (js "assistant") [Block (js "text") (js "a1")];
       Msg (js "user") [Block (js "text") (js "u2")]] = Some shaped
    /\ last shaped = Some (Msg (js "user") [Block (js "text") (js "u2")])
    /\ shaped !! O
       = Some (Msg (js "user")
                 [Block (js "text")
                    (js "(Context from earlier conversation, no response needed): u1")]).
Proof.
  destruct (shaping_of_readable_history node
              [Msg (js "user") [Block (js "text") (js "u1")];
               Msg (js "assistant") [Block (js "text") (js "a1")];
               Msg (js "user") [Block (js "text") (js "u2")]])
    as (shaped & Hfmt & _ & Hlast & Hearlier & _).
  - discriminate.
  - intros [|[|[|i]]] msg Hmsg Hlt Hrole; simpl in *; try lia.
    + injection Hmsg as <-. vm_compute. by eexists.
    + injection Hmsg as <-. vm_compute in Hrole. discriminate.
  - exists shaped. split; [exact Hfmt|]. split; [exact Hlast|].
    rewrite (Hearlier O (Msg (js "user") [Block (js "text") (js "u1")]));
      [vm_compute; reflexivity | reflexivity | simpl; lia].
Defined.

(** ** The persona filter *)

Section FilterProperties.

Lemma apply_rules_fixed (rs : list rule) (s : jsstring) :
  forallb (fun r => str_eqb (apply_rule s r) s) rs = true ->
  apply_rules rs s = s.
Proof.
  unfold apply_rules. induction rs as [|r rs IH]; simpl; [done|].
  rewrite andb_true_iff. intros [Hr Hrs].
  apply str_eqb_eq in Hr. rewrite Hr. by apply IH.
Qed.

Lemma settled_fixed (s : jsstring) :
  settled s = true -> rewriteString s = s.
Proof.
  unfold settled, ALL_RULES. rewrite andb_true_iff, !forallb_app, !andb_true_iff.
  intros [(Hd & Hp & Hf & Hc & Hb) Ht].
  unfold rewriteString. destruct s as [|c s]; [done|].
  unfold after_fallback.
  rewrite (apply_rules_fixed _ _ Hd), (apply_rules_fixed _ _ Hp),
    (apply_rules_fixed _ _ Hf), (apply_rules_fixed _ _ Hc).
  apply str_eqb_eq in Ht. rewrite Ht.
  simpl in Hb. rewrite andb_true_r in Hb. by apply str_eqb_eq in Hb.
Qed.

Lemma letter_not_punctuation (c : N) :
  65 <= c <= 122 ->
  is_space c = false /\ (c =? 46) = false /\ (c =? 44) = false.
Proof.
  intros H. unfold is_space.
  repeat match goal with
         | |- context [?a <=? ?b] => destruct (N.leb_spec a b); try lia
         | |- context [?a =? ?b] => destruct (N.eqb_spec a b); try lia
         end.
Qed.

(** Characters equal up to the case folding of the [i] flag are both
    triggers or both not. *)
Lemma chr_eq_trigger (ci : bool) (c x : N) :
  chr_eq ci c x = true -> trigger x = trigger c.
Proof.
  unfold chr_eq. destruct ci.
  - intros H. apply N.eqb_eq in H.
    destruct (N.eq_dec c x) as [->|Hne]; [done|].
    assert (Hr : 65 <= c <= 122 /\ 65 <= x <= 122).
    { unfold canon in H.
      destruct (N.leb_spec 97 c), (N.leb_spec c 122), (N.leb_spec 97 x),
        (N.leb_spec x 122); simpl in H; lia. }
    unfold trigger.
    destruct (letter_not_punctuation c (proj1 Hr)) as (-> & -> & ->).
    destruct (letter_not_punctuation x (proj2 Hr)) as (-> & -> & ->).
    by rewrite H.
  - intros H. apply N.eqb_eq in H. by subst.
Qed.

Lemma star_greedy_none (f : N -> bool) (k : cont) (p : option N) (s : jsstring) :
  no_trigger s ->
  (forall p' s', no_trigger s' -> k p' s' = None) ->
  star_greedy f k p s = None.
Proof.
  intros Hs Hk. revert p. induction Hs as [|c s Hc Hs IH]; intros p; simpl.
  - apply Hk. constructor.
  - destruct (f c); [rewrite IH; simpl|]; apply Hk; by constructor.
Qed.

Lemma star_lazy_none (f : N -> bool) (k : cont) (p : option N) (s : jsstring) :
  no_trigger s ->
  (forall p' s', no_trigger s' -> k p' s' = None) ->
  star_lazy f k p s = None.
Proof.
  intros Hs Hk. revert p. induction Hs as [|c s Hc Hs IH]; intros p; simpl.
  - rewrite Hk; [done | constructor].
  - rewrite Hk by (by constructor). simpl. destruct (f c); [apply IH | done].
Qed.

(** On a text without trigger characters a pattern fails if it needs one,
    or if its continuation fails wherever it is called. *)
Lemma m_none (ci : bool) (r : regex) :
  forall (k : cont) (p : option N) (s : jsstring),
    no_trigger s ->
    needs_trigger r = true \/ (forall p' s', no_trigger s' -> k p' s' = None) ->
    m ci r k p s = None.
Proof.
  induction r as [|c|r1 IH1 r2 IH2|r1 IH1 r2 IH2|r1 IH1|cl|cl|cl| |];
    intros k p s Hs H; cbn [m needs_trigger] in *.
  - destruct H as [?|Hk]; [done | by apply Hk].
  - destruct Hs as [|x s Hx Hs]; [done|].
    destruct (chr_eq ci c x) eqn:E; [|done].
    destruct H as [Hc|Hk]; [|by apply Hk].
    apply chr_eq_trigger in E. congruence.
  - destruct H as [Hn|Hk].
    + apply orb_true_iff in Hn. destruct Hn as [Hn|Hn].
      * apply IH1; [done | by left].
      * apply IH1; [done|]. right. intros p' s' Hs'. apply IH2; [done | by left].
    + apply IH1; [done|]. right. intros p' s' Hs'. apply IH2; [done | by right].
  - assert (H1 : needs_trigger r1 = true \/ (forall p' s', no_trigger s' -> k p' s' = None)).
    { destruct H as [Hn|Hk]; [|by right]. apply andb_true_iff in Hn. left. tauto. }
    assert (H2 : needs_trigger r2 = true \/ (forall p' s', no_trigger s' -> k p' s' = None)).
    { destruct H as [Hn|Hk]; [|by right]. apply andb_true_iff in Hn. left. tauto. }
    by rewrite IH1, IH2.
  - destruct H as [?|Hk]; [done|].
    rewrite IH1 by (done || by right). simpl. by apply Hk.
  - destruct H as [?|Hk]; [done|]. by apply star_greedy_none.
  - destruct Hs as [|x s Hx Hs].
    { done. }
    destruct (in_class cl x) eqn:E; [|done].
    destruct H as [Hn|Hk].
    + destruct cl; try done. simpl in E. unfold trigger in Hx. by rewrite E in Hx.
    + by apply star_greedy_none.
  - destruct H as [?|Hk]; [done|]. by apply star_lazy_none.
  - destruct H as [?|Hk]; [done|]. destruct (xorb _ _); [by apply Hk | done].
  - destruct H as [?|Hk]; [done|]. destruct s; [apply Hk; constructor | done].
Qed.

Lemma replace_inert (ci : bool) (r : regex) (to : jsstring) (s : jsstring) :
  needs_trigger r = true -> no_trigger s -> replace ci r to s = s.
Proof.
  intros Hr Hs. unfold replace. generalize (@None N) as p.
  induction Hs as [|c s Hc Hs IH]; intros p; simpl.
  - unfold exec. rewrite m_none; [done | constructor | by left].
  - unfold exec. rewrite m_none; [|by constructor | by left]. by rewrite IH.
Qed.

Lemma trim_start_inert (s : jsstring) : no_trigger s -> trim_start s = s.
Proof.
  destruct 1 as [|c s Hc Hs]; [done|]. simpl.
  unfold trigger in Hc. by destruct (is_space c).
Qed.

Lemma trim_inert (s : jsstring) : no_trigger s -> trim s = s.
Proof.
  intros Hs. unfold trim, trim_end. rewrite (trim_start_inert s Hs).
  rewrite trim_start_inert; [apply rev_involutive|].
  by apply List.Forall_rev.
Qed.

(** Every pattern of the rewrite needs a trigger character. *)
Lemma all_rules_need_trigger :
  forallb (fun r => needs_trigger (from r)) ALL_RULES = true.
Proof. vm_compute. reflexivity. Qed.

(** A text without trigger characters is settled: the rewrite returns it
    as it is. *)
Lemma inert_settled (s : jsstring) : inert s = true -> settled s = true.
Proof.
  intros Hi.
  assert (Hs : no_trigger s).
  { unfold inert in Hi. rewrite forallb_forall in Hi. apply Forall_forall.
    intros c Hc. apply list_elem_of_In in Hc. apply Hi in Hc. by destruct (trigger c). }
  unfold settled. apply andb_true_iff. split.
  - pose proof all_rules_need_trigger as Hall. rewrite forallb_forall in Hall.
    apply forallb_forall. intros r Hr. apply str_eqb_eq.
    unfold apply_rule. apply replace_inert; [by apply Hall | done].
  - apply str_eqb_eq. by apply trim_inert.
Qed.

End FilterProperties.

Section Fallback.

Lemma chr_eq_letter_word (c x : N) :
  is_letter c = true -> chr_eq true c x = true -> is_word x = true.
Proof.
  unfold is_letter, chr_eq, canon, is_word. intros Hc H. apply N.eqb_eq in H.
  repeat match goal with
         | _ : context [?a <=? ?b] |- _ => destruct (N.leb_spec a b); simpl in *
         end; try discriminate;
  repeat match goal with
         | |- context [?a <=? ?b] => destruct (N.leb_spec a b); simpl; try lia
         | |- context [?a =? ?b] => destruct (N.eqb_spec a b); simpl; try lia
         end; try reflexivity; lia.
Qed.

Lemma m_lit_of (w : jsstring) (k : cont) (p : option N) (s : jsstring) :
  m true (lit_of w) k p s
  = match lit_run w p s with
    | Some (p', s') => k p' s'
    | None => None
    end.
Proof.
  revert p s. induction w as [|c w IH]; intros p s; [done|].
  destruct w as [|c' w].
  - cbn [lit_of m lit_run]. destruct s as [|x s]; [done|].
    destruct (chr_eq true c x); done.
  - change (lit_of (c :: c' :: w)) with (Seq (Chr c) (lit_of (c' :: w))).
    cbn [m lit_run]. destruct s as [|x s]; [done|].
    destruct (chr_eq true c x); [apply IH | done].
Qed.

Lemma exec_phrase (w : jsstring) (p : option N) (s : jsstring) :
  exec true (phrase_of w) p s
  = if xorb (word_at p) (word_at (head s)) then
      match lit_run w p s with
      | Some (p', s') =>
          if xorb (word_at p') (word_at (head s')) then Some s' else None
      | None => None
      end
    else None.
Proof.
  unfold exec, phrase_of. cbn [seq m].
  destruct (xorb (word_at p) (word_at (head s))); [|done].
  rewrite m_lit_of. destruct (lit_run w p s) as [[p' s']|]; [|done]. done.
Qed.

Lemma lit_run_facts (w : jsstring) (p p' : option N) (s s' : jsstring) :
  letters w -> lit_run w p s = Some (p', s') ->
  (exists u, s = u ++ s' /\ length u = length w /\ Forall (fun x => is_word x = true) u)
  /\ (w <> [] -> word_at p' = true /\ word_at (head s) = true).
Proof.
  intros Hw. revert p s. induction Hw as [|c w Hc Hw IH]; intros p s H.
  - injection H as <- <-. split; [by exists [] | done].
  - cbn [lit_run] in H. destruct s as [|x s]; [done|].
    destruct (chr_eq true c x) eqn:E; [|done].
    pose proof (chr_eq_letter_word c x Hc E) as Hx.
    destruct (IH _ _ H) as [(u & -> & Hl & Hu) Hp]. split.
    + exists (x :: u). simpl. split; [done|]. split; [by rewrite Hl | by constructor].
    + intros _. split; [|done]. destruct w as [|c' w].
      * injection H as <- _. done.
      * by apply Hp.
Qed.

Lemma lit_run_prev (w : jsstring) (p q : option N) (s : jsstring) :
  fmap snd (lit_run w p s) = fmap snd (lit_run w q s).
Proof.
  destruct w as [|c w]; [done|]. cbn [lit_run].
  destruct s as [|x s]; [done|]. by destruct (chr_eq true c x).
Qed.

Lemma word_run_nil (s : jsstring) : word_run s = [] <-> word_at (head s) = false.
Proof.
  destruct s as [|c s]; simpl; [done|]. destruct (is_word c); split; done.
Qed.

Lemma lit_run_run (w : jsstring) (p : option N) (s : jsstring) :
  letters w ->
  (exists p' s', lit_run w p s = Some (p', s') /\ word_at (head s') = false)
  <-> (exists p', lit_run w p (word_run s) = Some (p', [])).
Proof.
  intros Hw. revert p s. induction Hw as [|c w Hc Hw IH]; intros p s.
  - cbn [lit_run]. split.
    + intros (p' & s' & [= <- <-] & H). exists p. f_equal. f_equal. by apply word_run_nil.
    + intros (p' & [= <- H]). exists p, s. split; [done | by apply word_run_nil].
  - destruct s as [|x s].
    { simpl. split; [intros (? & ? & ? & _) | intros [? ?]]; done. }
    cbn [lit_run word_run]. destruct (chr_eq true c x) eqn:E.
    + rewrite (chr_eq_letter_word c x Hc E). cbn [lit_run]. rewrite E. apply IH.
    + split; [intros (? & ? & ? & _); done|].
      destruct (is_word x); cbn [lit_run]; rewrite ?E; intros [? ?]; done.
Qed.

(** A whole-word match at a position: the position follows no word
    character and the run of word characters that starts there is the word. *)
Lemma exec_iff (w : jsstring) (p : option N) (s : jsstring) :
  letters w -> w <> [] ->
  exec true (phrase_of w) p s <> None
  <-> word_at p = false /\ starts_word w s = true.
Proof.
  intros Hw Hne. rewrite exec_phrase. unfold starts_word.
  pose proof (lit_run_run w p s Hw) as Hrun.
  pose proof (lit_run_prev w p None (word_run s)) as Hprev.
  destruct (lit_run w p s) as [[p' s']|] eqn:E.
  - destruct (lit_run_facts w p p' s s' Hw E) as [_ Hp]. destruct (Hp Hne) as [Hp' Hs].
    rewrite Hp', Hs. destruct (word_at p); simpl.
    { split; [done | intros [? _]; done]. }
    destruct (word_at (head s')) eqn:Eh; simpl.
    + split; [done|]. intros [_ H].
      destruct (lit_run w None (word_run s)) as [[q [|]]|] eqn:Er; try done.
      destruct (lit_run w p (word_run s)) as [[q' r]|] eqn:Er'; [|done].
      injection Hprev as ->.
      destruct (proj2 Hrun (ex_intro _ q' eq_refl)) as (? & ? & [= <- <-] & ?). congruence.
    + split; [|done]. intros _. split; [done|].
      destruct (proj1 Hrun (ex_intro _ p' (ex_intro _ s' (conj eq_refl Eh)))) as [q Hq].
      rewrite Hq in Hprev. destruct (lit_run w None (word_run s)) as [[q' r]|]; [|done].
      injection Hprev as <-. done.
  - split; [by destruct (xorb _ _)|]. intros [_ H].
    destruct (lit_run w None (word_run s)) as [[q [|]]|] eqn:Er; try done.
    destruct (lit_run w p (word_run s)) as [[q' r]|] eqn:Er'; [|done].
    injection Hprev as ->.
    destruct (proj2 Hrun (ex_intro _ q' eq_refl)) as (? & ? & ? & _). done.
Qed.

Lemma exec_some (w : jsstring) (p : option N) (s rest : jsstring) :
  letters w -> w <> [] ->
  exec true (phrase_of w) p s = Some rest ->
  word_at p = false
  /\ exists u, s = u ++ rest /\ length u = length w
               /\ Forall (fun x => is_word x = true) u.
Proof.
  intros Hw Hne H.
  assert (Hn : exec true (phrase_of w) p s <> None) by congruence.
  apply exec_iff in Hn; [|done|done]. split; [tauto|].
  rewrite exec_phrase in H. destruct (xorb _ _); [|done].
  destruct (lit_run w p s) as [[p' s']|] eqn:E; [|done].
  destruct (xorb _ _); [|done]. injection H as ->.
  by destruct (lit_run_facts w p p' s rest Hw E) as [? _].
Qed.

Lemma last_or_cons (p : option N) (c : N) (s : jsstring) :
  last_or p (c :: s) = last_or (Some c) s.
Proof. unfold last_or. rewrite last_cons. by destruct (last s). Qed.

Lemma covered_tail (v w : jsstring) (p : option N) (c : N) (t : jsstring) :
  covered v w p (c :: t) -> covered v w (Some c) t.
Proof.
  intros H pre suf -> Hv. rewrite <- (last_or_cons p c pre) in *.
  by apply (H (c :: pre) suf).
Qed.

Lemma exec_nil (w : jsstring) (p : option N) :
  letters w -> w <> [] -> exec true (phrase_of w) p [] = None.
Proof.
  intros Hw Hne. destruct (exec true (phrase_of w) p []) as [rest|] eqn:E; [|done].
  destruct (exec_some w p [] rest Hw Hne E) as (_ & u & Hu & Hl & _).
  destruct u; [by destruct w | done].
Qed.

Lemma exec_head_mismatch (c : N) (v : jsstring) (q : option N) (x : N) (t : jsstring) :
  chr_eq true c x = false -> exec true (phrase_of (c :: v)) q (x :: t) = None.
Proof.
  intros H. rewrite exec_phrase. cbn [lit_run]. rewrite H. by destruct (xorb _ _).
Qed.

(** No whole-word match of a word starts inside a text none of whose
    characters is the first letter of the word. *)
Lemma search_through (c : N) (v b : jsstring) (po : option N) (X : jsstring) :
  Forall (fun x => chr_eq true c x = false) b ->
  search_from true (phrase_of (c :: v)) po (b ++ X)
  = search_from true (phrase_of (c :: v)) (last_or po b) X.
Proof.
  intros Hb. revert po. induction Hb as [|x b Hx Hb IH]; intros po; [done|].
  change ((x :: b) ++ X) with (x :: (b ++ X)). cbn [search_from].
  rewrite (exec_head_mismatch c v po x _ Hx). rewrite IH. by rewrite last_or_cons.
Qed.

Section Replace.

Variables (w b : jsstring).
Hypothesis Hw : letters w.
Hypothesis Hwne : w <> [].

(** Where the replaced word does not match, the run of word characters at the head of
    the subject is still at the head of the result. *)
Lemma word_run_replace (p : option N) (s : jsstring) :
  exec true (phrase_of w) p s = None ->
  word_run (replace_from true (phrase_of w) b 0 p s) = word_run s.
Proof.
  revert p. induction s as [|c t IH]; intros p H.
  - simpl. by rewrite H.
  - cbn [replace_from]. rewrite H. cbn [word_run].
    destruct (is_word c) eqn:Ec; [|done]. f_equal. apply IH.
    destruct (exec true (phrase_of w) (Some c) t) eqn:E; [|done].
    assert (Hn : exec true (phrase_of w) (Some c) t <> None) by congruence.
    apply exec_iff in Hn; [|done|done]. simpl in Hn. destruct Hn. congruence.
Qed.

Variables (c0 : N) (v : jsstring).
Hypothesis Hv : letters (c0 :: v).
Hypothesis Hb : Forall (fun x => chr_eq true c0 x = false) b.
Hypothesis Hlast : forall po, word_at (last_or po b) = true.

(** Replacing the whole-word occurrences of [w] by [b] leaves no
    whole-word occurrence of a word that occurred only where [w] did. *)
Lemma replace_covered (s : jsstring) :
  forall (skip : nat) (p po : option N),
    word_at po = word_at p ->
    (skip <> O -> word_at p = true) ->
    Forall (fun x => is_word x = true) (take skip s) ->
    (skip <= length s)%nat ->
    covered (c0 :: v) w p s ->
    search_from true (phrase_of (c0 :: v)) po
      (replace_from true (phrase_of w) b skip p s) = false.
Proof.
  induction s as [|c t IH]; intros skip p po Hpo Hskip Htake Hlen Hcov.
  - simpl in Hlen. assert (skip = O) as -> by lia. simpl.
    rewrite (exec_nil w p Hw Hwne). simpl. by rewrite (exec_nil (c0 :: v) po Hv).
  - destruct skip as [|n].
    + cbn [replace_from].
      destruct (exec true (phrase_of w) p (c :: t)) as [rest|] eqn:E.
      * destruct (exec_some w p (c :: t) rest Hw Hwne E) as (Hp & u & Hu & Hl & Hword).
        destruct u as [|x u]; [by destruct w|].
        injection Hu as <- ->.
        inversion Hword as [|? ? Hc Hu']; subst.
        replace (length (c :: u ++ rest) - length rest)%nat with (S (length u))
          by (simpl; rewrite length_app; lia).
        rewrite search_through by done.
        apply IH.
        -- rewrite Hlast. simpl. by rewrite Hc.
        -- intros _. simpl. done.
        -- by rewrite take_app_length.
        -- rewrite length_app. lia.
        -- by eapply covered_tail.
      * cbn [search_from].
        assert (Hno : exec true (phrase_of (c0 :: v)) po
                        (c :: replace_from true (phrase_of w) b 0 (Some c) t) = None).
        { destruct (exec _ _ po _) eqn:Ev; [|done]. exfalso.
          assert (Hn : exec true (phrase_of (c0 :: v)) po
                         (c :: replace_from true (phrase_of w) b 0 (Some c) t) <> None)
            by congruence.
          apply exec_iff in Hn; [|done|done]. destruct Hn as [Hq Hs].
          assert (Hrun : word_run (c :: replace_from true (phrase_of w) b 0 (Some c) t)
                         = word_run (c :: t)).
          { rewrite <- (word_run_replace p (c :: t) E). cbn [replace_from]. by rewrite E. }
          unfold starts_word in Hs. rewrite Hrun in Hs.
          apply (Hcov [] (c :: t) eq_refl); [|exact E].
          apply exec_iff; [done|done|]. unfold last_or. simpl.
          split; [by rewrite <- Hpo | exact Hs]. }
        rewrite Hno. apply IH.
        -- done.
        -- done.
        -- rewrite take_0. constructor.
        -- lia.
        -- by eapply covered_tail.
    + cbn [replace_from]. simpl in Htake. inversion Htake as [|? ? Hc Ht]; subst.
      apply IH.
      * rewrite Hpo, (Hskip ltac:(done)). simpl. by rewrite Hc.
      * intros _. simpl. done.
      * done.
      * simpl in Hlen. lia.
      * by eapply covered_tail.
Qed.

End Replace.

Lemma covered_refl (w : jsstring) (p : option N) (s : jsstring) :
  covered w w p s.
Proof. by intros pre suf _ H. Qed.

Lemma search_none (v : jsstring) (p : option N) (pre suf : jsstring) :
  search_from true (phrase_of v) p (pre ++ suf) = false ->
  exec true (phrase_of v) (last_or p pre) suf = None.
Proof.
  revert p. induction pre as [|c pre IH]; intros p H.
  - unfold last_or. simpl. simpl in H.
    destruct suf; simpl in H; destruct (exec true (phrase_of v) p _); done.
  - change ((c :: pre) ++ suf) with (c :: (pre ++ suf)) in H. cbn [search_from] in H.
    destruct (exec true (phrase_of v) p (c :: pre ++ suf)); [done|].
    rewrite last_or_cons. by apply IH.
Qed.

Lemma absent_covered (v w : jsstring) (p : option N) (s : jsstring) :
  search_from true (phrase_of v) p s = false -> covered v w p s.
Proof.
  intros H pre suf -> Hv. exfalso. apply Hv. by apply search_none.
Qed.

Lemma replace_absent (w b : jsstring) (c0 : N) (v s : jsstring) :
  letters w -> w <> [] -> letters (c0 :: v) ->
  Forall (fun x => chr_eq true c0 x = false) b ->
  (forall po, word_at (last_or po b) = true) ->
  covered (c0 :: v) w None s ->
  has_whole_word (c0 :: v) (replace true (phrase_of w) b s) = false.
Proof.
  intros Hw Hne Hv Hb Hl Hcov. unfold has_whole_word, replace.
  apply (replace_covered w b Hw Hne c0 v Hv Hb Hl s O None None).
  - done.
  - done.
  - rewrite take_0. constructor.
  - lia.
  - done.
Qed.

(** After the fallback pass no forbidden term is left as a whole word,
    whatever the text before it. *)
Lemma fallback_pass_complete (s : jsstring) :
  forbidden_free (apply_rules FALLBACK_RULES s) = true.
Proof.
  assert (HC : letters (js "Claude")) by (repeat constructor).
  assert (HA : letters (js "Anthropic")) by (repeat constructor).
  assert (HbC : Forall (fun x => chr_eq true 67 x = false) BRAND_NAME)
    by (repeat constructor).
  assert (HbA : Forall (fun x => chr_eq true 65 x = false) BRAND_NAME)
    by (repeat constructor).
  assert (Hl : forall po, word_at (last_or po BRAND_NAME) = true) by done.
  change (apply_rules FALLBACK_RULES s)
    with (replace true (phrase_of (js "Anthropic")) BRAND_NAME
            (replace true (phrase_of (js "Claude")) BRAND_NAME s)).
  set (t1 := replace true (phrase_of (js "Claude")) BRAND_NAME s).
  assert (H1 : has_whole_word (js "Claude") t1 = false).
  { apply (replace_absent (js "Claude") BRAND_NAME 67 (js "laude")); try done.
    apply covered_refl. }
  unfold forbidden_free, FORBIDDEN_WORDS. cbn [forallb].
  rewrite !andb_true_iff, !negb_true_iff. split; [|split; [|done]].
  - apply (replace_absent (js "Anthropic") BRAND_NAME 67 (js "laude")); try done.
    by apply absent_covered.
  - apply (replace_absent (js "Anthropic") BRAND_NAME 65 (js "nthropic")); try done.
    apply covered_refl.
Qed.

Lemma after_fallback_forbidden_free (s : jsstring) :
  forbidden_free (after_fallback s) = true.
Proof. apply fallback_pass_complete. Qed.

End Fallback.

(** C1 (evaluated at an input the claim fails on). The fallback pass leaves
    [Anthropic] inside the word [AnthropicIsGreat]; the later clean-up step
    [/\s*I\s*s\s*/gi] then cuts the word after it, so the result holds the
    whole word [Anthropic]. *)
Theorem forbidden_term_reintroduced :
  rewriteString (js "#AnthropicIsGreat") = js "#Anthropic Is Great"
  /\ forbidden_free (after_fallback (js "#AnthropicIsGreat")) = true
  /\ forbidden_free (rewriteString (js "#AnthropicIsGreat")) = false.
Proof. vm_compute. auto. Qed.

(** C9 (evaluated at the scenario input). The result has no forbidden term
    and ends in one period, but the comma that preceded the deleted clause
    is still there. *)
Theorem scenario_forbidden_term :
  rewriteString (js "I am Claude, made by Anthropic.") = js "I am Nu SkyNet,."
  /\ forbidden_free (js "I am Nu SkyNet,.") = true.
Proof. vm_compute. auto. Qed.

(** C7 (evaluated at an input the claim fails on). The input has no
    forbidden term. The first pass turns its three periods into two, not
    one, and the text does not end with a single period; the second pass
    turns the two into one. *)
Theorem rewrite_twice_differs :
  let x := js "Hello..." in
  forbidden_free x = true
  /\ rewriteString x = js "Hello.."
  /\ rewriteString (rewriteString x) = js "Hello."
  /\ rewriteString (rewriteString x) <> rewriteString x.
Proof. vm_compute. repeat split; discriminate. Qed.

(** The same with white space: the first pass only collapses the double
    space, after the phrase rules have run, and that makes a phrase which
    the second pass deletes. *)
Lemma rewrite_not_idempotent :
  let x := js "I want  to clarify" in
  forbidden_free x = true
  /\ rewriteString x = js "I want to clarify"
  /\ rewriteString (rewriteString x) = []
  /\ rewriteString (rewriteString x) <> rewriteString x.
Proof. vm_compute. repeat split; discriminate. Qed.

(** On a request whose [headers] are a [Headers] instance, as the request
    of the chat route is, the bypass is never taken, whatever the entries:
    the payload is copied and deep-rewritten. *)
Lemma filter_on_headers_instance (P : Platform) (rawResponse : json)
    (entries : list (jsstring * jsstring)) :
  let req := Some (Request (Some (HeadersInstance entries))) in
  skipped (filterNuSkynet P rawResponse req) = false
  /\ filtered (filterNuSkynet P rawResponse req) = deepRewrite (clone P rawResponse)
  /\ raw (filterNuSkynet P rawResponse req) = rawResponse.
Proof. done. Qed.

(** C8 (evaluated at an input the claim fails on). The chat route hands
    its request to the filter, and the request carries the header
    [x-admin-raw-output: true]. The filter looks for the header among the
    properties of the [Headers] instance, finds none, and rewrites the
    payload: [skipped] is [false] and the text is the rewritten one. *)
Theorem admin_header_is_not_seen :
  let payload :=
    JObj [(js "content",
           JArr [JObj [(js "type", JStr (js "text"));
                       (js "text", JStr (js "I am Claude."))]])] in
  let request :=
    Request (Some (HeadersInstance [(ADMIN_HEADER, js "true")])) in
  skipped (filterNuSkynet node payload (Some request)) = false
  /\ filtered (filterNuSkynet node payload (Some request))
     = JObj [(js "content",
              JArr [JObj [(js "type", JStr (js "text"));
                          (js "text", JStr (js "I am Nu SkyNet."))]])].
Proof. vm_compute. done. Qed.

(** ** The streaming relay *)

Section SplitProperties.

Lemma split_nonempty (s : jsstring) : split s <> [].
Proof.
  destruct s as [|c s]; simpl; [done|].
  destruct (c =? 10); [done|]. by destruct (split s).
Qed.

Lemma removelast_cons {A} (x : A) (l : list A) :
  l <> [] -> removelast (x :: l) = x :: removelast l.
Proof. by destruct l. Qed.

Lemma last_cons_nonempty {A} (x d : A) (l : list A) :
  l <> [] -> List.last (x :: l) d = List.last l d.
Proof. by destruct l. Qed.

(** Splitting after appending more text: the complete lines stay, and the
    last fragment is continued by the new text. *)
Lemma split_app (a b : jsstring) :
  split (a ++ b) = removelast (split a) ++ split (List.last (split a) [] ++ b).
Proof.
  induction a as [|c a IH]; [done|].
  change ((c :: a) ++ b) with (c :: (a ++ b)).
  pose proof (split_nonempty a) as Hne.
  cbn [split]. destruct (c =? 10) eqn:Ec.
  - rewrite IH, removelast_cons, last_cons_nonempty by done. done.
  - rewrite IH. destruct (split a) as [|l [|l2 ls]]; [done| |].
    + cbn [removelast List.last app]. cbn [split]. rewrite Ec. done.
    + rewrite (removelast_cons l) by done.
      rewrite (removelast_cons (c :: l)) by done.
      rewrite !last_cons_nonempty by done. done.
Qed.

Lemma removelast_split_app (a b : jsstring) :
  removelast (split (a ++ b))
  = removelast (split a) ++ removelast (split (List.last (split a) [] ++ b)).
Proof.
  rewrite split_app. apply removelast_app, split_nonempty.
Qed.

Lemma last_app_nonempty {A} (l k : list A) (d : A) :
  k <> [] -> List.last (l ++ k) d = List.last k d.
Proof.
  intros Hk. induction l as [|x l IH]; [done|].
  change ((x :: l) ++ k) with (x :: (l ++ k)).
  rewrite last_cons_nonempty; [done|]. by destruct l, k.
Qed.

Lemma last_split_app (a b : jsstring) :
  List.last (split (a ++ b)) [] = List.last (split (List.last (split a) [] ++ b)) [].
Proof.
  rewrite split_app. apply last_app_nonempty, split_nonempty.
Qed.

End SplitProperties.

Section RelayProperties.

Variable P : Platform.
Variable sid : jsstring.

Lemma done_line_not_blank : str_eqb (trim DONE_LINE) [] = false.
Proof. reflexivity. Qed.

(** On an open stream, forwarding a payload appends its fragment, if it
    has one, to the accumulated text and to the events. *)
Lemma forward_open (payload : jsstring) (st : relay) :
  closed st = false ->
  forward P payload st
  = match fragment P payload with
    | Some v =>
        RelayState (fullResponse st ++ text_of P v) (buffer st) false
                   (sent st ++ [Delta v]) (conversations st) (uncaught st)
    | None => st
    end.
Proof.
  intros Hc. unfold forward, fragment, text_of.
  destruct (JSON_parse P payload) as [data|]; [|done].
  destruct (delta_text P data) as [delta|]; [|done].
  destruct (truthy P delta); [|done].
  destruct (ToString P delta) as [text|] eqn:E; [|done].
  unfold enqueue, set_fullResponse. simpl. rewrite Hc, E. done.
Qed.

(** On a closed stream nothing is enqueued any more. *)
Lemma forward_closed (payload : jsstring) (st : relay) :
  closed st = true ->
  sent (forward P payload st) = sent st
  /\ closed (forward P payload st) = true
  /\ uncaught (forward P payload st) = uncaught st.
Proof.
  intros Hc. unfold forward.
  destruct (JSON_parse P payload) as [data|]; [|done].
  destruct (delta_text P data) as [delta|]; [|done].
  destruct (truthy P delta); [|done].
  destruct (ToString P delta) as [text|]; [|done].
  unfold enqueue, set_fullResponse. simpl. rewrite Hc. done.
Qed.

Lemma process_line_closed (line : jsstring) (st : relay) :
  closed st = true ->
  match process_line P sid line st with
  | Next st' | Return st' | Throw st' => sent st' = sent st /\ closed st' = true
  end.
Proof.
  intros Hc. unfold process_line.
  destruct (str_eqb (trim line) []); [done|].
  destruct (str_eqb line DONE_LINE).
  - destruct (JSON_parse P (fullResponse st)); unfold enqueue; simpl; rewrite Hc; done.
  - destruct (startsWith line DATA_PREFIX); [|done].
    destruct (str_eqb (trim (drop 6 line)) []); [done|].
    destruct (forward_closed (trim (drop 6 line)) st Hc) as (? & ? & ?). done.
Qed.

Lemma process_lines_closed (lines : list jsstring) (st : relay) :
  closed st = true ->
  sent (process_lines P sid lines st) = sent st
  /\ closed (process_lines P sid lines st) = true.
Proof.
  revert st. induction lines as [|line lines IH]; intros st Hc; [done|].
  simpl. pose proof (process_line_closed line st Hc) as H.
  destruct (process_line P sid line st) as [st'|st'|st']; destruct H as [Hs Hc'].
  - destruct (IH st' Hc') as [-> ->]. done.
  - done.
  - done.
Qed.

Lemma on_data_closed (chunk : list byte) (st : relay) :
  closed st = true ->
  sent (on_data P sid chunk st) = sent st /\ closed (on_data P sid chunk st) = true.
Proof.
  intros Hc. unfold on_data. destruct (uncaught st); [done|].
  apply (process_lines_closed _ (set_buffer _ st)). exact Hc.
Qed.

(** One line read by an open relay. *)
Lemma process_line_open (line : jsstring) (st : relay) :
  closed st = false ->
  process_line P sid line st
  = if str_eqb line DONE_LINE then
      match JSON_parse P (fullResponse st) with
      | Some _ =>
          Return (RelayState (fullResponse st) (buffer st) true (sent st ++ [Done])
                    (addToConversationHistory (conversations st) sid (js "assistant")
                       (Plain (fullResponse st)))
                    (uncaught st))
      | None =>
          Return (RelayState (fullResponse st) (buffer st) true
                    (sent st ++ [Error PARSE_FAILED]) (conversations st) (uncaught st))
      end
    else
      Next match line_payload line with
           | Some payload => forward P payload st
           | None => st
           end.
Proof.
  intros Hc. unfold process_line, line_payload.
  destruct (str_eqb line DONE_LINE) eqn:Ed.
  - apply str_eqb_eq in Ed. subst line. rewrite done_line_not_blank.
    destruct (JSON_parse P (fullResponse st));
      unfold enqueue, close, set_conversations; simpl; rewrite Hc; done.
  - destruct (str_eqb (trim line) []); [done|].
    destruct (startsWith line DATA_PREFIX); [|done].
    destruct (str_eqb (trim (drop 6 line)) []); done.
Qed.

(** The complete lines read by an open relay: its events are those of the
    reference function on the lines. *)
Lemma process_lines_open (lines : list jsstring) (st : relay) :
  closed st = false -> uncaught st = false ->
  let st' := process_lines P sid lines st in
  sent st' = sent st ++ (events_of_lines P lines (fullResponse st)).1
  /\ uncaught st' = false
  /\ buffer st' = buffer st
  /\ match (events_of_lines P lines (fullResponse st)).2 with
     | Some full =>
         closed st' = false /\ fullResponse st' = full
         /\ conversations st' = conversations st
     | None => closed st' = true
     end.
Proof.
  revert st. induction lines as [|line lines IH]; intros st Hc Hu.
  - simpl. rewrite app_nil_r. done.
  - cbn [process_lines events_of_lines]. rewrite (process_line_open line st Hc).
    destruct (str_eqb line DONE_LINE).
    + destruct (JSON_parse P (fullResponse st)); simpl; done.
    + destruct (line_payload line) as [payload|]; [|by apply IH].
      rewrite (forward_open payload st Hc).
      destruct (fragment P payload) as [v|]; [|by apply IH].
      specialize (IH (RelayState (fullResponse st ++ text_of P v) (buffer st) false
                        (sent st ++ [Delta v]) (conversations st) (uncaught st))
                     eq_refl Hu).
      simpl in IH.
      destruct (events_of_lines P lines (fullResponse st ++ text_of P v)) as [evs r].
      simpl in *. destruct IH as (Hs & ? & ? & ?).
      rewrite Hs, <- app_assoc. done.
Qed.

Lemma events_of_lines_app (l1 l2 : list jsstring) (full : jsstring) :
  events_of_lines P (l1 ++ l2) full
  = match (events_of_lines P l1 full).2 with
    | Some full' =>
        ((events_of_lines P l1 full).1 ++ (events_of_lines P l2 full').1,
         (events_of_lines P l2 full').2)
    | None => events_of_lines P l1 full
    end.
Proof.
  revert full. induction l1 as [|line l1 IH]; intros full.
  - simpl. by destruct (events_of_lines P l2 full).
  - cbn [app events_of_lines].
    destruct (str_eqb line DONE_LINE); [done|].
    destruct (line_payload line) as [payload|]; [|apply IH].
    destruct (fragment P payload) as [v|]; [|apply IH].
    rewrite IH.
    destruct (events_of_lines P l1 (full ++ text_of P v)) as [evs [full'|]]; simpl; [|done].
    by destruct (events_of_lines P l2 full').
Qed.

Lemma upstream_text_snoc (chunks : list (list byte)) (chunk : list byte) :
  upstream_text (chunks ++ [chunk]) = upstream_text chunks ++ Buffer_toString chunk.
Proof.
  unfold upstream_text. rewrite map_app, concat_app. simpl. by rewrite app_nil_r.
Qed.

Lemma complete_lines_snoc (chunks : list (list byte)) (chunk : list byte) :
  complete_lines (chunks ++ [chunk])
  = complete_lines chunks
    ++ removelast (split (last_fragment chunks ++ Buffer_toString chunk)).
Proof.
  unfold complete_lines, last_fragment.
  rewrite upstream_text_snoc. apply removelast_split_app.
Qed.

Lemma last_fragment_snoc (chunks : list (list byte)) (chunk : list byte) :
  last_fragment (chunks ++ [chunk])
  = List.last (split (last_fragment chunks ++ Buffer_toString chunk)) [].
Proof.
  unfold last_fragment. rewrite upstream_text_snoc. apply last_split_app.
Qed.

(** After any chunks, the events so far are those of the complete lines
    of the decoded text, whatever the chunk boundaries were. *)
Lemma feed_events (chunks : list (list byte)) (c : gmap jsstring (list Message)) :
  let st := feed P sid chunks (start c) in
  sent st = (events_of_lines P (complete_lines chunks) []).1
  /\ match (events_of_lines P (complete_lines chunks) []).2 with
     | Some full =>
         closed st = false /\ uncaught st = false /\ fullResponse st = full
         /\ buffer st = last_fragment chunks /\ conversations st = c
     | None => closed st = true
     end.
Proof.
  induction chunks as [|chunk chunks IH] using rev_ind; [done|].
  unfold feed in *. rewrite fold_left_app. cbn [fold_left].
  set (st := fold_left _ chunks (start c)) in *. simpl in IH.
  rewrite complete_lines_snoc, events_of_lines_app.
  destruct IH as [Hs IH].
  destruct ((events_of_lines P (complete_lines chunks) []).2) as [full|] eqn:E.
  - destruct IH as (Hc & Hu & Hf & Hb & Hconv).
    unfold on_data. rewrite Hu, Hb.
    pose proof (process_lines_open
      (removelast (split (last_fragment chunks ++ Buffer_toString chunk)))
      (set_buffer (List.last (split (last_fragment chunks ++ Buffer_toString chunk)) []) st)
      Hc Hu) as H.
    cbn zeta in H. simpl in H. rewrite Hf in H.
    destruct H as (Hs' & Hu' & Hb' & H). simpl.
    split; [by rewrite Hs', Hs|].
    destruct ((events_of_lines P _ full).2); [|done].
    destruct H as (Hc' & Hf' & Hconv'). rewrite last_fragment_snoc.
    rewrite Hconv in Hconv'. done.
  - destruct (on_data_closed chunk st IH) as [Hs' Hc']. rewrite E.
    split; [by rewrite Hs' | done].
Qed.

(** The relay refines the reference function on the decoded text: the
    events sent over a whole exchange are [events_of] that text. *)
Lemma run_events (chunks : list (list byte)) (fin : upstream_end)
    (c : gmap jsstring (list Message)) :
  sent (run P sid c chunks fin) = events_of P (upstream_text chunks) fin.
Proof.
  unfold run, events_of.
  pose proof (feed_events chunks c) as H. cbn zeta in H.
  fold (complete_lines chunks). fold (last_fragment chunks).
  set (st := feed P sid chunks (start c)) in *.
  destruct (events_of_lines P (complete_lines chunks) []) as [evs r].
  simpl in H. destruct H as [Hs H]. destruct r as [full|].
  - destruct H as (Hc & Hu & Hf & Hb & Hconv). destruct fin; simpl.
    + unfold on_end. rewrite Hu, Hb.
      destruct (str_eqb (trim (last_fragment chunks)) []).
      * unfold close. rewrite Hc. simpl. by rewrite app_nil_r.
      * rewrite (forward_open _ st Hc).
        destruct (fragment P (trim (last_fragment chunks))).
        -- unfold close. simpl. by rewrite Hs.
        -- unfold close. rewrite Hc. simpl. by rewrite app_nil_r.
    + unfold on_error. rewrite Hu. unfold enqueue, close. rewrite Hc. simpl.
      by rewrite Hs.
  - destruct fin; simpl.
    + unfold on_end. destruct (uncaught st); [done|].
      destruct (str_eqb (trim (buffer st)) []).
      * unfold close. by rewrite H.
      * destruct (forward_closed (trim (buffer st)) st H) as (Hs' & Hc' & _).
        unfold close. rewrite Hc'. simpl. by rewrite Hs'.
    + unfold on_error. destruct (uncaught st); [done|].
      unfold enqueue. by rewrite H.
Qed.

(** Whatever the upstream sent, the client stream is closed when the
    exchange is over. *)
Lemma run_closed (chunks : list (list byte)) (fin : upstream_end)
    (c : gmap jsstring (list Message)) :
  closed (run P sid c chunks fin) = true.
Proof.
  unfold run. pose proof (feed_events chunks c) as H. cbn zeta in H.
  set (st := feed P sid chunks (start c)) in *. destruct H as [_ H].
  destruct ((events_of_lines P (complete_lines chunks) []).2) as [full|].
  - destruct H as (Hc & Hu & _). destruct fin; simpl.
    + unfold on_end. rewrite Hu. destruct (str_eqb _ []).
      * unfold close. by rewrite Hc.
      * rewrite (forward_open _ st Hc).
        destruct (fragment P _); unfold close; simpl; [done | by rewrite Hc].
    + unfold on_error. rewrite Hu. unfold enqueue, close. by rewrite Hc.
  - destruct fin; simpl.
    + unfold on_end. destruct (uncaught st); [done|].
      destruct (str_eqb _ []).
      * unfold close. by rewrite H.
      * destruct (forward_closed (trim (buffer st)) st H) as (_ & Hc' & _).
        unfold close. by rewrite Hc'.
    + unfold on_error. destruct (uncaught st); [done|].
      unfold enqueue. by rewrite H.
Qed.

End RelayProperties.

Section RelayShape.

Variable P : Platform.
Variable sid : jsstring.

(** The reference events of a list of lines: deltas only while the
    sentinel line has not come, deltas and one terminal event once it has. *)
Lemma events_of_lines_shape (lines : list jsstring) (full : jsstring) :
  exists ds,
    match (events_of_lines P lines full).2 with
    | Some _ =>
        (events_of_lines P lines full).1 = map Delta ds /\ ~ In DONE_LINE lines
    | None =>
        exists ev, (events_of_lines P lines full).1 = map Delta ds ++ [ev]
                   /\ is_terminal ev = true /\ In DONE_LINE lines
    end.
Proof.
  revert full. induction lines as [|line lines IH]; intros full.
  - exists []. simpl. split; [done|]. intros [].
  - cbn [events_of_lines]. destruct (str_eqb line DONE_LINE) eqn:Ed.
    + apply str_eqb_eq in Ed. subst line. exists []. simpl.
      destruct (JSON_parse P full); eexists; (split; [reflexivity|]); split; auto.
    + apply str_eqb_neq in Ed.
      assert (Hin : In DONE_LINE (line :: lines) <-> In DONE_LINE lines).
      { simpl. split; [intros [H|H]; [congruence|done] | auto]. }
      destruct (line_payload line) as [payload|].
      * destruct (fragment P payload) as [v|].
        -- destruct (IH (full ++ text_of P v)) as [ds H].
           destruct (events_of_lines P lines (full ++ text_of P v)) as [evs [f|]];
             simpl in *; exists (v :: ds).
           ++ destruct H as [-> H]. split; [done|]. by rewrite Hin.
           ++ destruct H as (ev & -> & Ht & H). exists ev. by rewrite Hin.
        -- destruct (IH full) as [ds H]. exists ds.
           destruct ((events_of_lines P lines full).2); [by rewrite Hin|].
           destruct H as (ev & ? & ? & ?). exists ev. by rewrite Hin.
      * destruct (IH full) as [ds H]. exists ds.
        destruct ((events_of_lines P lines full).2); [by rewrite Hin|].
        destruct H as (ev & ? & ? & ?). exists ev. by rewrite Hin.
Qed.


End RelayShape.

Section RelayExact.

Variable P : Platform.

Lemma in_sentinel_dec (lines : list jsstring) :
  In DONE_LINE lines \/ ~ In DONE_LINE lines.
Proof.
  induction lines as [|line lines IH]; [right; intros []|].
  destruct (str_eqb line DONE_LINE) eqn:E.
  - apply str_eqb_eq in E. left. by left.
  - apply str_eqb_neq in E. destruct IH as [IH|IH]; [left; by right|].
    right. intros [H|H]; done.
Qed.

Lemma before_sentinel_all (lines : list jsstring) :
  ~ In DONE_LINE lines -> before_sentinel lines = lines.
Proof.
  induction lines as [|line lines IH]; [done|]. intros Hno. simpl.
  destruct (str_eqb line DONE_LINE) eqn:E.
  - apply str_eqb_eq in E. destruct Hno. by left.
  - rewrite IH; [done|]. intros H. apply Hno. by right.
Qed.

(** The events of a sequence of complete lines, exactly: the fragments of
    the lines before the first sentinel line, then, when there is one, the
    terminal event of the text accumulated so far. *)
Lemma events_of_lines_exact (lines : list jsstring) (full : jsstring) :
  let ds := fragments P (before_sentinel lines) in
  let full' := full ++ concat (map (text_of P) ds) in
  (In DONE_LINE lines
   /\ events_of_lines P lines full
      = (map Delta ds ++ [sentinel_event P full'], None))
  \/ (~ In DONE_LINE lines
      /\ events_of_lines P lines full = (map Delta ds, Some full')).
Proof.
  revert full. induction lines as [|line lines IH]; intros full.
  - right. split; [intros []|]. simpl. by rewrite app_nil_r.
  - cbn [events_of_lines before_sentinel].
    destruct (str_eqb line DONE_LINE) eqn:E.
    + apply str_eqb_eq in E. left. split; [by left|].
      simpl. by rewrite app_nil_r.
    + apply str_eqb_neq in E.
      assert (Hno : ~ In DONE_LINE lines -> ~ In DONE_LINE (line :: lines))
        by (intros Hn [H|H]; done).
      unfold fragments. cbn [omap list_omap].
      fold (fragments P (before_sentinel lines)).
      destruct (line_payload line) as [payload|]; simpl.
      * destruct (fragment P payload) as [v|]; simpl.
        -- destruct (IH (full ++ text_of P v)) as [[H1 H2]|[H1 H2]];
             cbn zeta in H2; rewrite H2.
           ++ left. split; [by right|]. by rewrite (app_assoc full).
           ++ right. split; [by apply Hno|]. by rewrite (app_assoc full).
        -- destruct (IH full) as [[H1 H2]|[H1 H2]]; cbn zeta in H2; rewrite H2.
           ++ left. split; [by right | done].
           ++ right. split; [by apply Hno | done].
      * destruct (IH full) as [[H1 H2]|[H1 H2]]; cbn zeta in H2; rewrite H2.
        -- left. split; [by right | done].
        -- right. split; [by apply Hno | done].
Qed.

End RelayExact.

(** C2 (amended). Over a whole exchange the relay sends zero or more Delta
    events followed by at most one terminal event (Done or Error), which is
    last, and the client stream is closed in the end. No terminal event is
    sent exactly when the upstream stream ends normally and none of its
    complete lines is the sentinel line: the events are then the fragments
    of the complete lines followed by the fragment of the leftover text,
    if that text, trimmed, parses and has one. On an upstream error without
    a sentinel line the events are the fragments of the complete lines and
    then the stream error. With a sentinel line the events are the
    fragments of the lines before the first one and then its terminal
    event: Done when the text accumulated from those fragments parses as
    JSON, the parse error otherwise. *)
Theorem relay_event_order (P : Platform) (sessionId : jsstring)
    (c : gmap jsstring (list Message)) (chunks : list (list byte))
    (fin : upstream_end) :
  let st := run P sessionId c chunks fin in
  let lines := complete_lines chunks in
  exists ds t,
    sent st = map Delta ds ++ t
    /\ (t = [] \/ exists ev, t = [ev] /\ is_terminal ev = true)
    /\ (t = [] <-> fin = End /\ ~ In DONE_LINE lines)
    /\ closed st = true
    /\ (~ In DONE_LINE lines ->
        match fin with
        | End =>
            ds = fragments P lines ++ leftover_fragment P (last_fragment chunks)
        | Failure => ds = fragments P lines /\ t = [Error STREAM_ERROR]
        end)
    /\ (In DONE_LINE lines ->
        ds = fragments P (before_sentinel lines)
        /\ t = [sentinel_event P (concat (map (text_of P) ds))]).
Proof.
  cbn zeta. rewrite run_events, run_closed. unfold events_of.
  fold (complete_lines chunks). fold (last_fragment chunks).
  destruct (events_of_lines_exact P (complete_lines chunks) [])
    as [[Hin ->]|[Hno ->]]; cbn zeta.
  - exists (fragments P (before_sentinel (complete_lines chunks))),
      [sentinel_event P
         (concat (map (text_of P)
                    (fragments P (before_sentinel (complete_lines chunks)))))].
    split; [done|]. split.
    { right. eexists. split; [done|]. unfold sentinel_event.
      by destruct (JSON_parse P _). }
    split; [split; [done | intros [_ ?]; done]|].
    split; [done|]. split; [done|]. done.
  - rewrite (before_sentinel_all _ Hno). destruct fin.
    + exists (fragments P (complete_lines chunks)
              ++ leftover_fragment P (last_fragment chunks)), [].
      rewrite app_nil_r. split.
      { rewrite map_app. f_equal. unfold leftover_fragment.
        destruct (str_eqb _ []); [done|]. by destruct (fragment P _). }
      split; [by left|]. split; [done|]. split; [done|]. split; [done|]. done.
    + exists (fragments P (complete_lines chunks)), [Error STREAM_ERROR].
      split; [done|]. split; [right; by eexists|].
      split; [split; [done | intros [? _]; done]|].
      split; [done|]. split; [done|]. done.
Qed.

(** C2, as stated, fails: the upstream sends one frame and ends without a
    sentinel line; the relay sends the Delta and no terminal event. *)
Lemma relay_end_without_terminal :
  let chunk := bytes (jsq "data: {`delta`:{`text`:`Hi`}}") ++ [x0a] in
  sent (run node (js "s") ∅ [chunk] End) = [Delta (JStr (js "Hi"))]
  /\ existsb is_terminal (sent (run node (js "s") ∅ [chunk] End)) = false.
Proof. vm_compute. done. Qed.

(** C3 (amended). When an open relay reads the sentinel line, it closes
    the stream after one terminal event: Done, with the accumulated text
    appended to the history as the assistant turn, when that text parses as
    JSON; otherwise Error "Failed to parse complete response", with the
    history unchanged. *)
Theorem sentinel_line (P : Platform) (sessionId : jsstring) (st : relay) :
  closed st = false ->
  exists st',
    process_line P sessionId DONE_LINE st = Return st'
    /\ closed st' = true
    /\ match JSON_parse P (fullResponse st) with
       | Some _ =>
           sent st' = sent st ++ [Done]
           /\ conversations st'
              = addToConversationHistory (conversations st) sessionId
                  (js "assistant") (Plain (fullResponse st))
       | None =>
           sent st' = sent st ++ [Error PARSE_FAILED]
           /\ conversations st' = conversations st
       end.
Proof.
  intros Hc. rewrite (process_line_open P sessionId DONE_LINE st Hc).
  rewrite str_eqb_refl.
  destruct (JSON_parse P (fullResponse st)); eexists; (split; [reflexivity|]); done.
Qed.

Lemma sentinel_line_witness :
  exists st',
    process_line node (js "s") DONE_LINE
      (RelayState (js "Hi") [] false [Delta (JStr (js "Hi"))] ∅ false) = Return st'
    /\ closed st' = true
    /\ sent st' = [Delta (JStr (js "Hi")); Error PARSE_FAILED].
Proof.
  destruct (sentinel_line node (js "s")
              (RelayState (js "Hi") [] false [Delta (JStr (js "Hi"))] ∅ false))
    as (st' & Hst & Hc & H).
  - reflexivity.
  - exists st'. split; [exact Hst|]. split; [exact Hc|].
    change (JSON_parse node (js "Hi")) with (Json.JSON_parse (js "Hi")) in H.
    replace (Json.JSON_parse (js "Hi")) with (@None json) in H
      by (vm_compute; reflexivity).
    exact (proj1 H).
Defined.

(** C3, as stated, fails: the accumulated text [Hi] is not JSON, and on
    the sentinel line the relay sends an Error event and no Done. *)
Lemma sentinel_parse_failure_is_error :
  let chunks :=
    [bytes (jsq "data: {`delta`:{`text`:`Hi`}}") ++ [x0a];
     bytes (js "data: [DONE]") ++ [x0a]] in
  JSON_parse node (js "Hi") = None
  /\ sent (run node (js "s") ∅ chunks End)
     = [Delta (JStr (js "Hi")); Error PARSE_FAILED]
  /\ conversations (run node (js "s") ∅ chunks End) = ∅.
Proof. vm_compute. done. Qed.

Section RelayHistory.

Variable P : Platform.
Variable sid : jsstring.
Variable c0 : gmap jsstring (list Message).

Lemma from_payloads_mono (ps qs : list jsstring) (v : json) :
  incl ps qs -> from_payloads P ps v -> from_payloads P qs v.
Proof. intros Hi (q & Hq & Hv). exists q. split; [by apply Hi | done]. Qed.

Lemma raw_text_mono (ps qs : list jsstring) (t : jsstring) :
  incl ps qs -> raw_text P ps t -> raw_text P qs t.
Proof.
  intros Hi (vs & -> & Hvs). exists vs. split; [done|].
  eapply Forall_impl; [exact Hvs|]. intros v. by apply from_payloads_mono.
Qed.

Lemma kept_raw_mono (ps qs : list jsstring) (st : relay) :
  incl ps qs -> kept_raw P sid c0 ps st -> kept_raw P sid c0 qs st.
Proof.
  intros Hi [Hf (texts & Hc & Ht)]. split; [by eapply raw_text_mono|].
  exists texts. split; [done|].
  eapply Forall_impl; [exact Ht|]. intros t. by apply raw_text_mono.
Qed.

Lemma raw_text_snoc (ps : list jsstring) (t : jsstring) (v : json) :
  raw_text P ps t -> from_payloads P ps v -> raw_text P ps (t ++ text_of P v).
Proof.
  intros (vs & -> & Hvs) Hv. exists (vs ++ [v]). split.
  - rewrite map_app, concat_app. simpl. by rewrite app_nil_r.
  - apply Forall_app. split; [done | by constructor].
Qed.

Lemma forward_kept (ps : list jsstring) (payload : jsstring) (st : relay) :
  In payload ps -> kept_raw P sid c0 ps st -> kept_raw P sid c0 ps (forward P payload st).
Proof.
  intros Hin [Hf Hc]. unfold forward.
  destruct (JSON_parse P payload) as [data|] eqn:Ep; [|done].
  destruct (delta_text P data) as [delta|] eqn:Ed; [|done].
  destruct (truthy P delta) eqn:Et; [|done].
  destruct (ToString P delta) as [text|] eqn:Es; [|done].
  assert (Hv : from_payloads P ps delta).
  { exists payload. split; [done|]. unfold fragment. by rewrite Ep, Ed, Et, Es. }
  assert (Hk : kept_raw P sid c0 ps (set_fullResponse (fullResponse st ++ text) st)).
  { split; [|exact Hc]. replace text with (text_of P delta)
      by (unfold text_of; by rewrite Es). by apply raw_text_snoc. }
  unfold enqueue. destruct (closed _); [exact Hk|].
  destruct Hk as [? ?]. split; done.
Qed.

Lemma line_payload_data (line : jsstring) :
  str_eqb (trim line) [] = false ->
  startsWith line DATA_PREFIX = true ->
  str_eqb (trim (drop 6 line)) [] = false ->
  line_payload line = Some (trim (drop 6 line)).
Proof. intros H1 H2 H3. unfold line_payload. by rewrite H1, H2, H3. Qed.

Lemma process_line_kept (ps : list jsstring) (line : jsstring) (st : relay) :
  (forall payload, line_payload line = Some payload -> In payload ps) ->
  kept_raw P sid c0 ps st ->
  match process_line P sid line st with
  | Next st' | Return st' | Throw st' => kept_raw P sid c0 ps st' /\ buffer st' = buffer st
  end.
Proof.
  intros Hline Hk. unfold process_line.
  destruct (str_eqb (trim line) []) eqn:E1; [done|].
  destruct (str_eqb line DONE_LINE).
  - assert (Hadd : kept_raw P sid c0 ps
        (set_conversations
           (addToConversationHistory (conversations st) sid (js "assistant")
              (Plain (fullResponse st))) st)).
    { destruct Hk as [Hf (texts & Hc & Ht)]. split; [exact Hf|].
      exists (texts ++ [fullResponse st]). split.
      - unfold append_assistant. rewrite fold_left_app. simpl.
        unfold append_assistant in Hc. by rewrite <- Hc.
      - apply Forall_app. split; [done | by constructor]. }
    destruct (JSON_parse P (fullResponse st)); unfold enqueue, close; simpl;
      destruct (closed st); simpl; done.
  - destruct (startsWith line DATA_PREFIX) eqn:E2; [|done].
    destruct (str_eqb (trim (drop 6 line)) []) eqn:E3; [done|].
    split.
    + apply forward_kept; [|done]. apply Hline. by apply line_payload_data.
    + unfold forward. destruct (JSON_parse P _); [|done].
      destruct (delta_text P _); [|done]. destruct (truthy P _); [|done].
      destruct (ToString P _); [|done].
      unfold enqueue. simpl. by destruct (closed st).
Qed.

Lemma process_lines_kept (ps : list jsstring) (lines : list jsstring) (st : relay) :
  incl (omap line_payload lines) ps ->
  kept_raw P sid c0 ps st ->
  kept_raw P sid c0 ps (process_lines P sid lines st)
  /\ buffer (process_lines P sid lines st) = buffer st.
Proof.
  revert st. induction lines as [|line lines IH]; intros st Hi Hk; [done|].
  cbn [omap list_omap] in Hi. cbn [process_lines].
  assert (Hline : forall payload, line_payload line = Some payload -> In payload ps).
  { intros payload E. rewrite E in Hi. apply Hi. by left. }
  assert (Hrest : incl (omap line_payload lines) ps).
  { destruct (line_payload line); [|done]. intros q Hq. apply Hi. by right. }
  pose proof (process_line_kept ps line st Hline Hk) as H.
  destruct (process_line P sid line st) as [st'|st'|st']; destruct H as [Hk' Hb].
  - destruct (IH st' Hrest Hk') as [? ->]. done.
  - done.
  - split; [|done]. destruct Hk' as [? ?]. split; done.
Qed.

Lemma omap_line_payload_app (l k : list jsstring) :
  omap line_payload (l ++ k) = omap line_payload l ++ omap line_payload k.
Proof. apply omap_app. Qed.

(** After any chunks: the buffer is the leftover fragment of the decoded
    text, and only fragments of its complete lines were kept. *)
Lemma feed_kept (chunks : list (list byte)) :
  let st := feed P sid chunks (start c0) in
  (uncaught st = false -> buffer st = last_fragment chunks)
  /\ kept_raw P sid c0 (omap line_payload (complete_lines chunks)) st.
Proof.
  induction chunks as [|chunk chunks IH] using rev_ind.
  - simpl. split; [done|]. split; [by exists [] | by exists []].
  - unfold feed in *. rewrite fold_left_app. cbn [fold_left].
    set (st := fold_left _ chunks (start c0)) in *. cbn zeta in IH.
    destruct IH as [Hb Hk].
    rewrite complete_lines_snoc, omap_line_payload_app, last_fragment_snoc.
    set (ps := omap line_payload (complete_lines chunks)) in *.
    set (new := removelast (split (last_fragment chunks ++ Buffer_toString chunk))).
    assert (Hk' : kept_raw P sid c0 (ps ++ omap line_payload new) st).
    { eapply kept_raw_mono; [|exact Hk]. apply incl_appl. intros x Hx; exact Hx. }
    unfold on_data. destruct (uncaught st) eqn:Eu.
    + cbn zeta. rewrite Eu. split; [done | exact Hk'].
    + rewrite (Hb eq_refl). fold new.
      destruct (process_lines_kept (ps ++ omap line_payload new) new
                  (set_buffer (List.last (split (last_fragment chunks ++ Buffer_toString chunk)) []) st))
        as [Hk'' Hb''].
      * apply incl_appr. intros x Hx; exact Hx.
      * destruct Hk' as [? ?]. split; done.
      * cbn zeta. split; [intros _; exact Hb'' | exact Hk''].
Qed.


End RelayHistory.


(** A frame whose text the filter would rewrite is forwarded and stored
    as it came (the text is a quoted word, so that it parses as JSON when
    the sentinel line arrives). *)
Example streamed_text_not_rewritten :
  let chunks :=
    [bytes (jsq "data: {`delta`:{`text`:`\`Claude\``}}") ++ [x0a];
     bytes (js "data: [DONE]") ++ [x0a]] in
  sent (run node (js "s") ∅ chunks End) = [Delta (JStr (jsq "`Claude`")); Done]
  /\ getConversationHistory (conversations (run node (js "s") ∅ chunks End)) (js "s")
     = [Msg (js "assistant") [Block (js "text") (jsq "`Claude`")]]
  /\ rewriteString (jsq "`Claude`") = jsq "`Nu SkyNet`".
Proof. vm_compute. done. Qed.

Section Chunking.

Lemma decode_ascii (bs : list byte) :
  Forall is_ascii bs -> Buffer_toString bs = map Byte.to_N bs.
Proof.
  unfold Buffer_toString. induction 1 as [|b bs Hb _ IH]; [done|].
  cbn [decode]. unfold step. cbn [bytes_needed initial]. simpl (0 =? 0).
  unfold first_byte. unfold is_ascii in Hb.
  destruct (N.leb_spec (Byte.to_N b) 127) as [_|?]; [|lia].
  simpl. by rewrite IH.
Qed.

Lemma upstream_text_ascii (chunks : list (list byte)) :
  Forall (Forall is_ascii) chunks ->
  upstream_text chunks = map Byte.to_N (concat chunks).
Proof.
  unfold upstream_text. induction 1 as [|chunk chunks Hc _ IH]; [done|].
  simpl. by rewrite map_app, IH, decode_ascii.
Qed.

(** The events depend on the chunks only through the decoded text. *)
Lemma same_text_same_events (P : Platform) (sid : jsstring)
    (c : gmap jsstring (list Message)) (chunks1 chunks2 : list (list byte))
    (fin : upstream_end) :
  upstream_text chunks1 = upstream_text chunks2 ->
  sent (run P sid c chunks1 fin) = sent (run P sid c chunks2 fin).
Proof. intros H. by rewrite !run_events, H. Qed.

(** For an upstream made of ASCII bytes the events do not depend on where
    the chunk boundaries fall. *)
Lemma chunking_independent_ascii (P : Platform) (sid : jsstring)
    (c : gmap jsstring (list Message)) (chunks1 chunks2 : list (list byte))
    (fin : upstream_end) :
  concat chunks1 = concat chunks2 ->
  Forall (Forall is_ascii) chunks1 ->
  Forall (Forall is_ascii) chunks2 ->
  sent (run P sid c chunks1 fin) = sent (run P sid c chunks2 fin).
Proof.
  intros H H1 H2. apply same_text_same_events.
  by rewrite !upstream_text_ascii, H.
Qed.

End Chunking.

(** C4 (evaluated at an input the claim fails on). The same upstream
    bytes, one frame whose text is the two-byte character U+00E9, are
    relayed as that character when they come in one chunk, and as two
    U+FFFD when the chunk boundary falls between its two bytes: each chunk
    is decoded on its own before it is appended to the line buffer. *)
Theorem chunk_boundary_inside_character :
  let head := bytes (jsq "data: {`delta`:{`text`:`") in
  let tail := bytes (jsq "`}}") ++ [x0a] in
  let one := [head ++ [xc3; xa9] ++ tail] in
  let two := [head ++ [xc3]; [xa9] ++ tail] in
  concat one = concat two
  /\ sent (run node (js "s") ∅ one End) = [Delta (JStr [233])]
  /\ sent (run node (js "s") ∅ two End) = [Delta (JStr [65533; 65533])].
Proof. vm_compute. done. Qed.

(** * Further properties *)

(** ** The conversation store *)

Section StoreExtras.

Implicit Types (c : gmap jsstring (list Message)).

Lemma slice_last_last {A} (n : nat) (l : list A) (x : A) :
  last (slice_last (S n) (l ++ [x])) = Some x.
Proof.
  unfold slice_last. rewrite length_app. simpl.
  rewrite drop_app_le by lia. apply last_snoc.
Qed.

Lemma get_add_same c sid role content :
  getConversationHistory (addToConversationHistory c sid role content) sid
  = slice_last 20 (getConversationHistory c sid ++ [stored (sid, role, content)]).
Proof.
  pose proof (get_add c sid (sid, role, content)) as H. simpl in H.
  by destruct (decide (sid = sid)).
Qed.

Lemma get_add_last c sid role content :
  last (getConversationHistory (addToConversationHistory c sid role content) sid)
  = Some (stored (sid, role, content)).
Proof. rewrite get_add_same. apply slice_last_last. Qed.

End StoreExtras.

(** X1. The message just appended is the last entry of the history of its
    session, whatever was stored before. *)
Theorem appended_message_is_last (c : gmap jsstring (list Message))
    (sessionId role : jsstring) (content : content_arg) :
  last (getConversationHistory
          (addToConversationHistory c sessionId role content) sessionId)
  = Some (stored (sessionId, role, content)).
Proof. apply get_add_last. Qed.

(** X2. On a history within the cap, an append adds the message at the
    end; when the history already has 20 entries, exactly the oldest one is
    dropped. *)
Theorem append_evicts_oldest (c : gmap jsstring (list Message))
    (sessionId role : jsstring) (content : content_arg) :
  (length (getConversationHistory c sessionId) <= 20)%nat ->
  getConversationHistory
    (addToConversationHistory c sessionId role content) sessionId
  = (if (length (getConversationHistory c sessionId) <? 20)%nat
     then getConversationHistory c sessionId
     else drop 1 (getConversationHistory c sessionId))
    ++ [stored (sessionId, role, content)].
Proof.
  intros Hle. rewrite get_add_same. unfold slice_last. rewrite length_app. simpl.
  destruct (Nat.ltb_spec (length (getConversationHistory c sessionId)) 20).
  - replace (_ + 1 - 20)%nat with O by lia. done.
  - replace (_ + 1 - 20)%nat with 1%nat by lia.
    rewrite drop_app_le by lia. done.
Qed.

Lemma append_evicts_oldest_witness :
  let c := append_all (replicate 20 (js "s", js "user", Plain (js "old"))) ∅ in
  (length (getConversationHistory c (js "s")) <= 20)%nat
  /\ getConversationHistory
       (addToConversationHistory c (js "s") (js "assistant") (Plain (js "new")))
       (js "s")
     = (if (length (getConversationHistory c (js "s")) <? 20)%nat
        then getConversationHistory c (js "s")
        else drop 1 (getConversationHistory c (js "s")))
       ++ [stored (js "s", js "assistant", Plain (js "new"))].
Proof.
  assert (H : (length (getConversationHistory
                 (append_all (replicate 20 (js "s", js "user", Plain (js "old"))) ∅)
                 (js "s")) <= 20)%nat)
    by (vm_compute; lia).
  split; [exact H|].
  exact (append_evicts_oldest _ (js "s") (js "assistant") (Plain (js "new")) H).
Defined.

(** X3. An append to one session leaves the history of every other session
    as it was. *)
Theorem append_other_session (c : gmap jsstring (list Message))
    (sessionId other role : jsstring) (content : content_arg) :
  other <> sessionId ->
  getConversationHistory
    (addToConversationHistory c other role content) sessionId
  = getConversationHistory c sessionId.
Proof.
  intros Hne. pose proof (get_add c sessionId (other, role, content)) as H.
  simpl in H. by destruct (decide (other = sessionId)).
Qed.

Lemma append_other_session_witness :
  js "b" <> js "a"
  /\ getConversationHistory
       (addToConversationHistory
          (addToConversationHistory ∅ (js "a") (js "user") (Plain (js "hi")))
          (js "b") (js "user") (Plain (js "yo")))
       (js "a")
     = getConversationHistory
         (addToConversationHistory ∅ (js "a") (js "user") (Plain (js "hi")))
         (js "a").
Proof.
  assert (H : js "b" <> js "a") by discriminate.
  split; [exact H|].
  exact (append_other_session _ (js "a") (js "b") (js "user") (Plain (js "yo")) H).
Defined.

(** X4. Initializing a session never changes a stored history (its own or
    another session's), registers the session, and is idempotent. *)
Theorem initialize_keeps_histories (c : gmap jsstring (list Message))
    (sessionId other : jsstring) :
  getConversationHistory (initializeConversation c sessionId) other
  = getConversationHistory c other
  /\ is_Some (initializeConversation c sessionId !! sessionId)
  /\ initializeConversation (initializeConversation c sessionId) sessionId
     = initializeConversation c sessionId.
Proof.
  split; [apply get_initialize|].
  assert (H : is_Some (initializeConversation c sessionId !! sessionId)).
  { unfold initializeConversation. destruct (c !! sessionId) eqn:E.
    - by rewrite E.
    - by rewrite lookup_insert_eq. }
  split; [exact H|].
  destruct H as [h Hh]. unfold initializeConversation at 1. by rewrite Hh.
Qed.

Section ShapingExtras.

Variable P : Platform.

Lemma shape_message_role (len i : nat) (msg out : Message) :
  shape_message P len i msg = Some out -> role out = role msg.
Proof.
  unfold shape_message. destruct (i =? len - 1)%nat; [by intros [= ->]|].
  destruct (str_eqb (role msg) (js "user")) eqn:E; [|by intros [= ->]].
  apply str_eqb_eq in E. destruct (first_text P msg); [|done].
  intros [= <-]. by rewrite E.
Qed.

Lemma shape_message_last (len : nat) (msg : Message) :
  shape_message P len (len - 1) msg = Some msg.
Proof. unfold shape_message. by rewrite Nat.eqb_refl. Qed.

Lemma shape_message_fails (len i : nat) (msg : Message) :
  shape_message P len i msg = None
  <-> i <> (len - 1)%nat /\ role msg = js "user" /\ first_text P msg = None.
Proof.
  unfold shape_message. destruct (Nat.eqb_spec i (len - 1)).
  { split; [done | intros [? _]; done]. }
  destruct (str_eqb (role msg) (js "user")) eqn:E.
  - apply str_eqb_eq in E. destruct (first_text P msg); split; try done.
    intros (_ & _ & ?). done.
  - apply str_eqb_neq in E. split; [done | intros (_ & ? & _); done].
Qed.

(** When the read of [msg.content[0].text] throws. *)
Lemma first_text_fails (msg : Message) :
  first_text P msg = None
  <-> match content msg with
      | [] => True
      | JNull :: _ => True
      | b :: _ => exists t, get b (js "text") = Some t /\ ToString P t = None
      end.
Proof.
  unfold first_text. destruct (content msg) as [|b rest]; [done|].
  destruct b; try done;
    (destruct (get _ (js "text")) as [t|];
     [split; [intros H; by exists t | intros (t' & [= <-] & H); done]
     |split; [done | intros (t' & H & _); done]]).
Qed.

(** What a successful call returns, message by message. *)
Lemma format_lookup (history shaped : list Message) :
  formatConversationForClaude P history = Some shaped ->
  length shaped = length history
  /\ forall i msg, history !! i = Some msg ->
       exists out, shaped !! i = Some out
                   /\ shape_message P (length history) i msg = Some out.
Proof.
  unfold formatConversationForClaude.
  destruct (Nat.eqb_spec (length history) 0) as [E|E].
  - intros [= <-]. destruct history; [|done]. split; [done|]. intros i msg H. done.
  - intros H. apply mapM_Some in H.
    pose proof (Forall2_length _ _ _ H) as Hl. rewrite length_imap in Hl.
    split; [done|]. intros i msg Hi.
    assert (Hi' : imap (shape_message P (length history)) history !! i
                  = Some (shape_message P (length history) i msg))
      by (by rewrite list_lookup_imap, Hi).
    destruct (Forall2_lookup_l _ _ _ _ _ H Hi') as (out & Hout & Heq).
    exists out. done.
Qed.

Lemma format_success_facts (history shaped : list Message) :
  formatConversationForClaude P history = Some shaped ->
  length shaped = length history
  /\ map role shaped = map role history
  /\ last shaped = last history.
Proof.
  intros H. destruct (format_lookup history shaped H) as [Hl Hlook].
  split; [done|]. split.
  - apply list_eq. intros i. rewrite !list_lookup_fmap.
    destruct (history !! i) as [msg|] eqn:Ei.
    + destruct (Hlook i msg Ei) as (out & -> & Hout). simpl.
      by rewrite (shape_message_role _ _ _ _ Hout).
    + apply lookup_ge_None in Ei. rewrite lookup_ge_None_2 by lia. done.
  - rewrite !last_lookup, Hl.
    destruct (history !! pred (length history)) as [msg|] eqn:Ei.
    + destruct (Hlook _ msg Ei) as (out & -> & Hout).
      replace (pred (length history)) with (length history - 1)%nat in Hout by lia.
      rewrite shape_message_last in Hout. done.
    + apply lookup_ge_None in Ei. rewrite lookup_ge_None_2 by lia. done.
Qed.

Lemma format_fails (history : list Message) :
  formatConversationForClaude P history = None
  <-> exists i msg,
        history !! i = Some msg /\ (i < length history - 1)%nat
        /\ role msg = js "user" /\ first_text P msg = None.
Proof.
  unfold formatConversationForClaude.
  destruct (Nat.eqb_spec (length history) 0) as [E|E].
  { split; [done|]. intros (i & _ & _ & Hi & _). lia. }
  rewrite mapM_None, Exists_exists. split.
  - intros (x & Hin & Hx). apply list_elem_of_lookup in Hin. destruct Hin as [i Hi].
    rewrite list_lookup_imap in Hi.
    destruct (history !! i) as [msg|] eqn:Ei; [|done].
    injection Hi as <-. apply shape_message_fails in Hx.
    destruct Hx as (Hne & Hu & Hc). exists i, msg.
    apply lookup_lt_Some in Ei as Hlt. repeat split; try done. lia.
  - intros (i & msg & Hi & Hlt & Hu & Hc). exists None. split; [|done].
    apply list_elem_of_lookup. exists i. rewrite list_lookup_imap, Hi. simpl. f_equal.
    apply shape_message_fails. repeat split; try done. lia.
Qed.

End ShapingExtras.

(** X5. Whenever the context shaping returns, its result has as many
    messages as the history, each with the role of the message at the same
    position, and its last message is the last message of the history,
    unchanged. *)
Theorem shaping_keeps_order_and_roles (P : Platform)
    (history shaped : list Message) :
  formatConversationForClaude P history = Some shaped ->
  length shaped = length history
  /\ map role shaped = map role history
  /\ last shaped = last history.
Proof. apply format_success_facts. Qed.

Lemma shaping_keeps_order_and_roles_witness :
  exists shaped,
    formatConversationForClaude node
      [Msg (js "user") [Block (js "text") (js "u1")];
       Msg (js "assistant") [Block (js "text") (js "a1")]] = Some shaped
    /\ map role shaped = [js "user"; js "assistant"].
Proof.
  eexists. split; [vm_compute; reflexivity|].
  refine (proj1 (proj2 (shaping_keeps_order_and_roles node
            [Msg (js "user") [Block (js "text") (js "u1")];
             Msg (js "assistant") [Block (js "text") (js "a1")]] _ _))).
  vm_compute. reflexivity.
Defined.

(** X6. The context shaping throws exactly when, for some message before
    the last one that has the role [user], the read of
    [msg.content[0].text] throws: the content array is empty, its first
    element is [null], or the text of its first element is a value whose
    conversion to a string throws. In every other case it returns. *)
Theorem shaping_throws_iff (P : Platform) (history : list Message) :
  formatConversationForClaude P history = None
  <-> exists i msg,
        history !! i = Some msg /\ (i < length history - 1)%nat
        /\ role msg = js "user"
        /\ match content msg with
           | [] => True
           | JNull :: _ => True
           | b :: _ => exists t, get b (js "text") = Some t /\ ToString P t = None
           end.
Proof.
  rewrite format_fails. split.
  - intros (i & msg & Hi & Hlt & Hu & Hf). exists i, msg.
    repeat split; try done. by apply first_text_fails.
  - intros (i & msg & Hi & Hlt & Hu & Hf). exists i, msg.
    repeat split; try done. by apply first_text_fails.
Qed.

(** X7. After a user message is appended, the context shaping of the
    history of that session, when it returns, ends with that message as it
    was stored: the message to answer is sent without the context prefix. *)
Theorem new_message_is_sent_unchanged (P : Platform)
    (c : gmap jsstring (list Message))
    (sessionId : jsstring) (content : content_arg) (shaped : list Message) :
  formatConversationForClaude P
    (getConversationHistory
       (addToConversationHistory c sessionId (js "user") content) sessionId)
  = Some shaped ->
  last shaped = Some (stored (sessionId, js "user", content)).
Proof.
  intros H. apply format_success_facts in H.
  destruct H as (_ & _ & ->). apply get_add_last.
Qed.

Lemma new_message_is_sent_unchanged_witness :
  exists shaped,
    formatConversationForClaude node
      (getConversationHistory
         (addToConversationHistory
            (addToConversationHistory ∅ (js "s") (js "user") (Plain (js "first")))
            (js "s") (js "user") (Plain (js "second")))
         (js "s")) = Some shaped
    /\ last shaped = Some (Msg (js "user") [Block (js "text") (js "second")]).
Proof.
  eexists. split; [vm_compute; reflexivity|].
  refine (new_message_is_sent_unchanged node
            (addToConversationHistory ∅ (js "s") (js "user") (Plain (js "first")))
            (js "s") (Plain (js "second")) _ _).
  vm_compute. reflexivity.
Defined.

(** ** Clearing a session *)

Section ClearProperties.

Variable P : Platform.

Lemma clear_map (c : gmap jsstring (list Message)) (body : option json) :
  (ClearHistory.POST P c body).1
  = match body with
    | None | Some JNull => c
    | Some b =>
        match ClearHistory.current_session P b with
        | JStr key => delete key c
        | _ => c
        end
    end.
Proof.
  unfold ClearHistory.POST. destruct body as [b|]; [|done].
  assert (Hdel : forall key,
            match c !! key with Some _ => delete key c | None => c end
            = delete key c).
  { intros key. destruct (c !! key) eqn:E; [done|]. by rewrite delete_id. }
  destruct b; try done;
    (destruct (ClearHistory.current_session P _) as [| | |key| |] eqn:Ecur;
     rewrite ?Hdel; by destruct (ToString P _)).
Qed.




End ClearProperties.


Section ServerProperties.

Import Server.

Variable P : Platform.

Lemma perform_clear_on_empty (s : maps) (body : option json) :
  clear_conversations s = ∅ -> perform P (ClearHistoryPOST body) s = s.
Proof.
  intros H. destruct s as [a b c]. simpl in *. subst c.
  rewrite clear_map. f_equal.
  destruct body as [v|]; [|done].
  destruct v; try done;
    (destruct (ClearHistory.current_session P _); try done; apply delete_empty).
Qed.

Lemma perform_keeps_clear_map (a : action) (s : maps) :
  clear_conversations s = ∅ -> clear_conversations (perform P a s) = ∅.
Proof.
  intros H. destruct a; try done.
  by rewrite perform_clear_on_empty.
Qed.

Lemma perform_all_without_clear (actions : list action) (s : maps) :
  clear_conversations s = ∅ ->
  perform_all P actions s
  = perform_all P (List.filter (fun a => negb (is_clear a)) actions) s
  /\ clear_conversations (perform_all P actions s) = ∅.
Proof.
  revert s. induction actions as [|a actions IH]; intros s H; [done|].
  cbn [perform_all fold_left List.filter].
  destruct (is_clear a) eqn:Ea; cbn [negb].
  - destruct a; try done. rewrite perform_clear_on_empty by done. by apply IH.
  - cbn [fold_left]. apply IH. by apply perform_keeps_clear_map.
Qed.

End ServerProperties.

(** X9. The map that the clear route looks into is never written by any
    route, so it stays empty: over any sequence of requests since the
    modules were loaded, the histories that the chat route and the stream
    route keep are the same as if the clear requests had not been made. *)
Theorem clear_history_changes_no_route_history (P : Platform)
    (actions : list Server.action) :
  Server.perform_all P actions Server.loaded
  = Server.perform_all P
      (List.filter (fun a => negb (Server.is_clear a)) actions) Server.loaded
  /\ Server.clear_conversations (Server.perform_all P actions Server.loaded) = ∅.
Proof. by apply perform_all_without_clear. Qed.

(** ** The persona filter *)

(** X10. Whatever text reaches it, the fallback loop over the forbidden
    words leaves a text in which neither word occurs as a whole word, in
    any case. *)
Theorem fallback_loop_leaves_no_forbidden_word (s : jsstring) :
  forbidden_free (apply_rules FALLBACK_RULES s) = true.
Proof. apply fallback_pass_complete. Qed.

(** X11. A text that has no white space, no period, no comma and neither
    of the letters [i] and [c] (in either case) is returned by the rewrite
    exactly as it is: no pattern of the file can match in it. *)
Theorem rewrite_leaves_inert_text (x : jsstring) :
  inert x = true -> rewriteString x = x.
Proof. intros H. by apply settled_fixed, inert_settled. Qed.

Lemma rewrite_leaves_inert_text_witness :
  inert (js "req_2024-11-02T08:15_0042") = true
  /\ rewriteString (js "req_2024-11-02T08:15_0042") = js "req_2024-11-02T08:15_0042".
Proof.
  assert (H : inert (js "req_2024-11-02T08:15_0042") = true) by (vm_compute; reflexivity).
  split; [exact H|].
  exact (rewrite_leaves_inert_text (js "req_2024-11-02T08:15_0042") H).
Defined.

Section TrimmedOutput.

Lemma starts_clean_trim_start (s : jsstring) : starts_clean (trim_start s).
Proof.
  induction s as [|c s IH]; [done|]. simpl.
  destruct (is_space c) eqn:E; [done|]. simpl. done.
Qed.

Lemma trim_start_clean (s : jsstring) : starts_clean s -> trim_start s = s.
Proof. destruct s as [|c s]; [done|]. simpl. by intros ->. Qed.

Lemma trim_start_snoc (l : jsstring) (c : N) :
  is_space c = false -> exists l', trim_start (l ++ [c]) = l' ++ [c].
Proof.
  intros Hc. induction l as [|x l IH].
  - exists []. simpl. by rewrite Hc.
  - simpl. destruct (is_space x); [exact IH|]. by exists (x :: l).
Qed.

Lemma trim_clean (s : jsstring) : starts_clean (trim s) /\ ends_clean (trim s).
Proof.
  unfold trim, trim_end, ends_clean. split.
  - pose proof (starts_clean_trim_start s) as H.
    destruct (trim_start s) as [|c r]; [done|]. simpl in H.
    change (rev (c :: r)) with (rev r ++ [c]).
    destruct (trim_start_snoc (rev r) c H) as [l' ->].
    rewrite rev_app_distr. simpl. done.
  - rewrite rev_involutive. apply starts_clean_trim_start.
Qed.

Lemma trim_of_clean (s : jsstring) :
  starts_clean s -> ends_clean s -> trim s = s.
Proof.
  intros Hs He. unfold trim, trim_end. rewrite (trim_start_clean s Hs).
  rewrite (trim_start_clean (rev s) He). apply rev_involutive.
Qed.

Lemma ends_clean_last (s : jsstring) : ends_clean s <-> last_clean s.
Proof.
  unfold ends_clean, last_clean. destruct s as [|x s] using rev_ind; [done|].
  rewrite rev_app_distr, last_snoc. simpl. done.
Qed.

Variables (ci : bool) (r : regex) (to : jsstring).
Hypothesis to_nonempty : to <> [].
Hypothesis to_starts : starts_clean to.
Hypothesis to_ends : last_clean to.

Lemma replace_from_nonempty (p : option N) (s : jsstring) :
  s <> [] -> replace_from ci r to 0 p s <> [].
Proof.
  destruct s as [|c t]; [done|]. intros _. cbn [replace_from].
  destruct (exec ci r p (c :: t)) as [rest|]; [|done].
  destruct (length (c :: t) - length rest)%nat; by destruct to.
Qed.

Lemma last_clean_app (a b : jsstring) :
  last_clean a -> last_clean b -> last_clean (a ++ b).
Proof.
  unfold last_clean. rewrite last_app. by destruct (last b).
Qed.

Lemma last_clean_tail (c : N) (t : jsstring) :
  last_clean (c :: t) -> last_clean t.
Proof. unfold last_clean. rewrite last_cons. by destruct (last t). Qed.

Lemma last_clean_cons (c : N) (t rec : jsstring) :
  last_clean (c :: t) -> (t <> [] -> rec <> []) -> last_clean rec ->
  last_clean (c :: rec).
Proof.
  unfold last_clean. intros Hs Hne Hrec. rewrite last_cons.
  destruct (last rec) eqn:E; [done|].
  apply last_None in E. subst rec.
  destruct t; [by simpl in Hs | by destruct Hne].
Qed.

(** A replacement text that is clean at both ends keeps the subject clean
    at both ends. *)
Lemma replace_from_last_clean (s : jsstring) :
  forall (skip : nat) (p : option N),
    last_clean s -> last_clean (replace_from ci r to skip p s).
Proof.
  induction s as [|c t IH]; intros skip p Hs.
  - simpl. destruct skip; [|done]. by destruct (exec ci r p []).
  - pose proof (last_clean_tail c t Hs) as Ht. cbn [replace_from].
    destruct skip as [|n]; [|by apply IH].
    destruct (exec ci r p (c :: t)) as [rest|].
    + destruct (length (c :: t) - length rest)%nat.
      * apply last_clean_app; [done|].
        apply (last_clean_cons c t); [done | apply replace_from_nonempty | by apply IH].
      * apply last_clean_app; [done | by apply IH].
    + apply (last_clean_cons c t); [done | apply replace_from_nonempty | by apply IH].
Qed.

Lemma replace_starts_clean (s : jsstring) :
  starts_clean s -> starts_clean (replace ci r to s).
Proof.
  unfold replace. destruct s as [|c t]; intros Hs.
  - simpl. by destruct (exec ci r None []).
  - cbn [replace_from]. destruct (exec ci r None (c :: t)) as [rest|]; [|done].
    destruct (length (c :: t) - length rest)%nat; by destruct to.
Qed.

End TrimmedOutput.

(** X12. The text returned by the rewrite never begins or ends with white
    space: trimming it again changes nothing. *)
Theorem rewrite_output_is_trimmed (x : jsstring) :
  trim (rewriteString x) = rewriteString x.
Proof.
  unfold rewriteString. destruct x as [|c x]; [reflexivity|].
  generalize (apply_rules CLEANUP_RULES (after_fallback (c :: x))). intros y.
  destruct (trim_clean y) as [Hs He].
  unfold apply_rule. change (ci DOUBLE_BRAND) with true.
  change (to DOUBLE_BRAND) with BRAND_NAME.
  generalize dependent (trim y). intros s Hs He.
  generalize (from DOUBLE_BRAND). intros r.
  assert (Hne : BRAND_NAME <> []) by discriminate.
  assert (Hst : starts_clean BRAND_NAME) by reflexivity.
  assert (Hen : last_clean BRAND_NAME) by reflexivity.
  apply trim_of_clean.
  - apply replace_starts_clean; assumption.
  - apply ends_clean_last. apply replace_from_last_clean; try assumption.
    apply ends_clean_last. assumption.
Qed.

Section PayloadShape.

(** Induction on payloads, with the hypothesis for every item of an array
    and every value of an object. *)
Lemma json_nested_ind (Q : json -> Prop) :
  Q JNull ->
  (forall b, Q (JBool b)) ->
  (forall n, Q (JNum n)) ->
  (forall s, Q (JStr s)) ->
  (forall items, Forall Q items -> Q (JArr items)) ->
  (forall fields, Forall (fun kv => Q kv.2) fields -> Q (JObj fields)) ->
  forall v, Q v.
Proof.
  intros Hnull Hbool Hnum Hstr Harr Hobj.
  fix IH 1. intros [ |b|n|s|items|fields].
  - exact Hnull.
  - apply Hbool.
  - apply Hnum.
  - apply Hstr.
  - apply Harr. induction items as [|x items IHitems]; constructor.
    + apply IH.
    + exact IHitems.
  - apply Hobj. induction fields as [|[k x] fields IHfields]; constructor.
    + apply IH.
    + exact IHfields.
Qed.

Lemma deep_rewrite_shape (v : json) :
  proto_free v = true ->
  skeleton (deepRewrite v) = skeleton v
  /\ string_leaves (deepRewrite v) = map rewriteString (string_leaves v).
Proof.
  induction v as [ |b|n|s|items IH|fields IH] using json_nested_ind;
    intros Hfree; try done.
  - cbn [proto_free] in Hfree. cbn [deepRewrite skeleton string_leaves].
    assert (H : map skeleton (map deepRewrite items) = map skeleton items
                /\ concat (map string_leaves (map deepRewrite items))
                   = map rewriteString (concat (map string_leaves items))).
    { induction IH as [|x items Hx _ IHitems]; [done|].
      simpl in Hfree. apply andb_true_iff in Hfree. destruct Hfree as [Hf1 Hf2].
      destruct (Hx Hf1) as [Hx1 Hx2]. destruct (IHitems Hf2) as [Hi1 Hi2].
      simpl. rewrite Hx1, Hi1, Hx2, Hi2. by rewrite map_app. }
    destruct H as [-> ->]. done.
  - cbn [proto_free] in Hfree. cbn [deepRewrite skeleton string_leaves].
    induction IH as [|[k x] fields Hx _ IHfields]; [done|].
    rewrite !andb_true_iff, negb_true_iff in Hfree.
    destruct Hfree as [[Hk Hf1] Hf2]. rewrite Hk.
    destruct (Hx Hf1) as [Hx1 Hx2]. destruct (IHfields Hf2) as [Hi1 Hi2].
    injection Hi1 as Hi1. simpl in Hx1, Hx2. split.
    + by rewrite Hx1, Hi1.
    + by rewrite Hx2, Hi2, map_app.
Qed.

End PayloadShape.

(** X13. On a payload none of whose objects has a key [__proto__], the
    deep rewrite changes nothing but the string values: the structure, the
    keys and their order, the numbers, booleans and nulls are the same, and
    the string values are, in order, the rewrites of the original ones. *)
Theorem deep_rewrite_changes_only_strings (v : json) :
  proto_free v = true ->
  skeleton (deepRewrite v) = skeleton v
  /\ string_leaves (deepRewrite v) = map rewriteString (string_leaves v).
Proof. apply deep_rewrite_shape. Qed.

Lemma deep_rewrite_changes_only_strings_witness :
  let payload :=
    JObj [(js "id", JStr (js "msg_01"));
          (js "content",
           JArr [JObj [(js "type", JStr (js "text"));
                       (js "text", JStr (js "I am Claude"))]]);
          (js "usage", JObj [(js "output_tokens", JNum (js "12"))])] in
  proto_free payload = true
  /\ skeleton (deepRewrite payload) = skeleton payload
  /\ string_leaves (deepRewrite payload)
     = map rewriteString (string_leaves payload).
Proof.
  cbn zeta. split; [vm_compute; reflexivity|].
  apply (deep_rewrite_changes_only_strings
           (JObj [(js "id", JStr (js "msg_01"));
                  (js "content",
                   JArr [JObj [(js "type", JStr (js "text"));
                               (js "text", JStr (js "I am Claude"))]]);
                  (js "usage", JObj [(js "output_tokens", JNum (js "12"))])])).
  vm_compute. reflexivity.
Defined.

(** ** The streaming relay *)

Section RelayExtras.

Variable P : Platform.
Variable sid : jsstring.

Lemma feed_closed (chunks : list (list byte)) (st : relay) :
  closed st = true ->
  sent (feed P sid chunks st) = sent st /\ closed (feed P sid chunks st) = true.
Proof.
  revert st. induction chunks as [|chunk chunks IH]; intros st Hc; [done|].
  cbn [feed fold_left]. destruct (on_data_closed P sid chunk st Hc) as [Hs Hc'].
  destruct (IH _ Hc') as [IHs IHc]. unfold feed in *. by rewrite IHs, IHc, Hs.
Qed.

Lemma finish_closed (fin : upstream_end) (st : relay) :
  closed st = true ->
  sent (finish P fin st) = sent st /\ closed (finish P fin st) = true.
Proof.
  intros Hc. destruct fin; simpl.
  - unfold on_end. destruct (uncaught st); [done|].
    destruct (str_eqb (trim (buffer st)) []).
    + unfold close. by rewrite Hc.
    + destruct (forward_closed P (trim (buffer st)) st Hc) as (Hs & Hc' & _).
      unfold close. rewrite Hc'. simpl. by rewrite Hs, Hc'.
  - unfold on_error. destruct (uncaught st); [done|].
    unfold enqueue. by rewrite Hc.
Qed.

Lemma forward_no_fragment (payload : jsstring) (st : relay) :
  fragment P payload = None -> forward P payload st = st.
Proof.
  unfold fragment, forward. destruct (JSON_parse P payload) as [data|]; [|done].
  destruct (delta_text P data) as [delta|]; [|done].
  destruct (truthy P delta); [|done]. by destruct (ToString P delta).
Qed.

Lemma process_line_ignored (line : jsstring) (st : relay) :
  line <> DONE_LINE ->
  (forall payload, line_payload line = Some payload -> fragment P payload = None) ->
  process_line P sid line st = Next st.
Proof.
  intros Hne Hfrag. unfold process_line. unfold line_payload in Hfrag.
  destruct (str_eqb (trim line) []); [done|].
  apply str_eqb_neq in Hne. rewrite Hne.
  destruct (startsWith line DATA_PREFIX); [|done].
  destruct (str_eqb (trim (drop 6 line)) []); [done|].
  by rewrite forward_no_fragment by (by apply Hfrag).
Qed.

Lemma process_lines_ignored (l1 l2 : list jsstring) (line : jsstring) (st : relay) :
  line <> DONE_LINE ->
  (forall payload, line_payload line = Some payload -> fragment P payload = None) ->
  process_lines P sid (l1 ++ line :: l2) st = process_lines P sid (l1 ++ l2) st.
Proof.
  intros Hne Hfrag. revert st. induction l1 as [|x l1 IH]; intros st.
  - cbn [app process_lines]. by rewrite process_line_ignored.
  - cbn [app process_lines]. destruct (process_line P sid x st); [apply IH|done|done].
Qed.

Lemma events_of_lines_text (lines : list jsstring) (full : jsstring) :
  match (events_of_lines P lines full).2 with
  | Some full' =>
      full' = full ++ concat (map (text_of P)
                            (delta_values (events_of_lines P lines full).1))
  | None => True
  end.
Proof.
  revert full. induction lines as [|line lines IH]; intros full.
  - simpl. by rewrite app_nil_r.
  - cbn [events_of_lines]. destruct (str_eqb line DONE_LINE); [done|].
    destruct (line_payload line) as [payload|]; [|apply IH].
    destruct (fragment P payload) as [v|]; [|apply IH].
    specialize (IH (full ++ text_of P v)).
    destruct (events_of_lines P lines (full ++ text_of P v)) as [evs [f|]]; [|done].
    simpl in *. by rewrite IH, <- app_assoc.
Qed.

Lemma delta_values_app (a b : list StreamEvent) :
  delta_values (a ++ b) = delta_values a ++ delta_values b.
Proof. apply omap_app. Qed.

Lemma no_sentinel_run (c : gmap jsstring (list Message))
    (chunks : list (list byte)) (fin : upstream_end) :
  ~ In DONE_LINE (complete_lines chunks) ->
  conversations (run P sid c chunks fin) = c
  /\ fullResponse (run P sid c chunks fin)
     = concat (map (text_of P) (delta_values (sent (run P sid c chunks fin)))).
Proof.
  intros Hno. unfold run.
  pose proof (feed_events P sid chunks c) as H. cbn zeta in H.
  pose proof (events_of_lines_shape P (complete_lines chunks) []) as [ds Hshape].
  pose proof (events_of_lines_text (complete_lines chunks) []) as Htext.
  set (st := feed P sid chunks (start c)) in *.
  destruct (events_of_lines P (complete_lines chunks) []) as [evs [full|]];
    simpl in H, Hshape, Htext.
  2: { destruct Hshape as (? & _ & _ & Hin). done. }
  destruct H as (Hs & Hc & Hu & Hf & Hb & Hconv).
  assert (Hfull : fullResponse st
                  = concat (map (text_of P) (delta_values (sent st))))
    by (by rewrite Hf, Hs, Htext).
  destruct fin; simpl.
  - unfold on_end. rewrite Hu.
    destruct (str_eqb (trim (buffer st)) []).
    + unfold close. rewrite Hc. simpl. done.
    + rewrite (forward_open P _ st Hc).
      destruct (fragment P (trim (buffer st))) as [v|].
      * unfold close. simpl. split; [done|].
        rewrite delta_values_app, map_app, concat_app, <- Hfull. simpl.
        by rewrite app_nil_r.
      * unfold close. rewrite Hc. simpl. done.
  - unfold on_error. rewrite Hu. unfold enqueue, close. rewrite Hc. simpl.
    split; [done|]. rewrite delta_values_app, map_app, concat_app, <- Hfull. simpl.
    by rewrite app_nil_r.
Qed.

Lemma fragment_converts (payload : jsstring) (v : json) :
  fragment P payload = Some v -> is_Some (ToString P v).
Proof.
  unfold fragment. destruct (JSON_parse P payload) as [data|]; [|done].
  destruct (delta_text P data) as [delta|]; [|done].
  destruct (truthy P delta); [|done].
  destruct (ToString P delta) as [text|] eqn:E; [|done].
  intros [= <-]. by rewrite E.
Qed.

Lemma fragments_convert (lines : list jsstring) :
  Forall (fun v => is_Some (ToString P v)) (fragments P lines).
Proof.
  unfold fragments. induction lines as [|line lines IH]; [constructor|].
  cbn [omap list_omap]. destruct (line_payload line) as [payload|]; [|done].
  simpl. destruct (fragment P payload) as [v|] eqn:E; [|done].
  constructor; [by eapply fragment_converts | done].
Qed.

Lemma delta_values_deltas (ds : list json) : delta_values (map Delta ds) = ds.
Proof. induction ds as [|d ds IH]; [done|]. simpl. by rewrite <- IH at 2. Qed.

(** Every fragment that was sent converts to text. *)
Lemma sent_deltas_convert (c : gmap jsstring (list Message))
    (chunks : list (list byte)) (fin : upstream_end) :
  Forall (fun v => is_Some (ToString P v))
         (delta_values (sent (run P sid c chunks fin))).
Proof.
  rewrite run_events. unfold events_of. fold (complete_lines chunks).
  destruct (events_of_lines_exact P (complete_lines chunks) [])
    as [[_ ->]|[_ ->]]; cbn zeta.
  - rewrite delta_values_app, delta_values_deltas.
    apply Forall_app. split; [apply fragments_convert|].
    unfold sentinel_event. destruct (JSON_parse P _); constructor.
  - rewrite delta_values_app, delta_values_deltas.
    apply Forall_app. split; [apply fragments_convert|].
    destruct fin; [|constructor].
    destruct (str_eqb _ []); [constructor|].
    destruct (fragment P _) as [v|] eqn:E; [|constructor].
    constructor; [by eapply fragment_converts | constructor].
Qed.

Lemma split_no_newline (s : jsstring) :
  Forall (fun l => ~ In 10 l) (split s).
Proof.
  induction s as [|c s IH].
  - simpl. constructor; [intros [] | constructor].
  - cbn [split]. destruct (N.eqb_spec c 10) as [->|Hc].
    + constructor; [intros [] | done].
    + pose proof (split_nonempty s) as Hne.
      destruct (split s) as [|l ls]; [done|].
      inversion IH as [|? ? Hl Hls]; subst. constructor; [|done].
      intros [->|Hin]; [done | by apply Hl].
Qed.

Lemma split_join (s : jsstring) :
  with_newlines (removelast (split s)) ++ List.last (split s) [] = s.
Proof.
  induction s as [|c s IH]; [done|].
  pose proof (split_nonempty s) as Hne. cbn [split].
  destruct (N.eqb_spec c 10) as [->|Hc].
  - rewrite removelast_cons, last_cons_nonempty by done.
    unfold with_newlines in *. simpl. by rewrite IH.
  - destruct (split s) as [|l [|l2 ls]]; [done| |].
    + simpl in *. by rewrite IH.
    + rewrite (removelast_cons l) in IH by done.
      rewrite (removelast_cons (c :: l)) by done.
      rewrite last_cons_nonempty in IH by done.
      rewrite last_cons_nonempty by done.
      unfold with_newlines in *. simpl in *. by rewrite IH.
Qed.

Lemma last_in_nonempty {A} (l : list A) (d : A) :
  l <> [] -> In (List.last l d) l.
Proof.
  induction l as [|x l IH]; [done|]. intros _.
  destruct l as [|y l]; [by left|]. right. apply IH. done.
Qed.

Lemma buffer_facts (c : gmap jsstring (list Message)) (chunks : list (list byte)) :
  uncaught (feed P sid chunks (start c)) = false ->
  buffer (feed P sid chunks (start c)) = last_fragment chunks
  /\ ~ In 10 (buffer (feed P sid chunks (start c)))
  /\ upstream_text chunks
     = with_newlines (complete_lines chunks) ++ buffer (feed P sid chunks (start c)).
Proof.
  intros Hu. destruct (feed_kept P sid c chunks) as [Hb _]. cbn zeta in Hb.
  rewrite (Hb Hu). split; [done|]. split.
  - unfold last_fragment.
    pose proof (split_no_newline (upstream_text chunks)) as H.
    rewrite Forall_forall in H. apply H. apply list_elem_of_In.
    apply last_in_nonempty, split_nonempty.
  - unfold complete_lines, last_fragment. by rewrite split_join.
Qed.

Lemma trim_head_kept (c : N) (s : jsstring) :
  is_space c = false -> exists t, trim (c :: s) = c :: t.
Proof.
  intros Hc. unfold trim, trim_end. cbn [trim_start]. rewrite Hc.
  change (rev (c :: s)) with (rev s ++ [c]).
  destruct (trim_start_snoc (rev s) c Hc) as [l' ->].
  rewrite rev_app_distr. simpl. by exists (rev l').
Qed.

Lemma end_drops_data_frame (c : gmap jsstring (list Message))
    (chunks : list (list byte)) :
  (forall text, JSON_parse P (100 :: text) = None) ->
  startsWith (last_fragment chunks) DATA_PREFIX = true ->
  sent (run P sid c chunks End) = sent (feed P sid chunks (start c)).
Proof.
  intros Hd Hpre. unfold run. cbn [finish].
  pose proof (feed_events P sid chunks c) as H. cbn zeta in H.
  set (st := feed P sid chunks (start c)) in *. destruct H as [_ H].
  destruct ((events_of_lines P (complete_lines chunks) []).2).
  - destruct H as (Hc & Hu & _ & Hb & _).
    unfold on_end. rewrite Hu, Hb.
    destruct (last_fragment chunks) as [|x rest]; [done|].
    cbn in Hpre. apply andb_prop in Hpre as [Hx _]. apply N.eqb_eq in Hx.
    vm_compute in Hx. subst x.
    destruct (trim_head_kept 100 rest eq_refl) as [t ->]. cbn [str_eqb].
    rewrite forward_no_fragment by (unfold fragment; by rewrite Hd).
    unfold close. by rewrite Hc.
  - by destruct (finish_closed End st H) as [Hs _].
Qed.

End RelayExtras.

(** X14. When every upstream byte is ASCII, the events the stream route
    sends depend only on the bytes, not on how the transport cuts them into
    chunks: two chunkings of the same byte sequence give the same events. *)
Theorem ascii_upstream_chunking_is_irrelevant (P : Platform) (sid : jsstring)
    (c : gmap jsstring (list Message)) (chunks1 chunks2 : list (list byte))
    (fin : upstream_end) :
  Forall (Forall is_ascii) chunks1 ->
  Forall (Forall is_ascii) chunks2 ->
  concat chunks1 = concat chunks2 ->
  sent (run P sid c chunks1 fin) = sent (run P sid c chunks2 fin).
Proof.
  intros H1 H2 H. apply same_text_same_events.
  by rewrite !upstream_text_ascii, H.
Qed.

Lemma ascii_upstream_chunking_is_irrelevant_witness :
  let one := [bytes (jsq "data: {`delta`:{`text`:`Hi`}}") ++ [x0a]] in
  let two := [bytes (jsq "data: {`del"); bytes (jsq "ta`:{`text`:`Hi`}}") ++ [x0a]] in
  sent (run node (js "s") ∅ one End) = sent (run node (js "s") ∅ two End).
Proof.
  cbv zeta. apply ascii_upstream_chunking_is_irrelevant.
  - vm_compute. repeat constructor.
  - vm_compute. repeat constructor.
  - vm_compute. reflexivity.
Defined.

(** X15. Once the client stream is closed, nothing the upstream still
    delivers reaches the client: whatever chunks follow and however the
    upstream ends, no event is added and the stream stays closed. *)
Theorem closed_stream_stays_silent (P : Platform) (sid : jsstring)
    (st : relay) (chunks : list (list byte)) (fin : upstream_end) :
  closed st = true ->
  sent (finish P fin (feed P sid chunks st)) = sent st
  /\ closed (finish P fin (feed P sid chunks st)) = true.
Proof.
  intros Hc. destruct (feed_closed P sid chunks st Hc) as [Hs Hc'].
  destruct (finish_closed P fin _ Hc') as [Hs' Hc'']. by rewrite Hs', Hc''.
Qed.

Lemma closed_stream_stays_silent_witness :
  let st := feed node (js "s") [bytes (jsq "data: [DONE]") ++ [x0a]] (start ∅) in
  let more := [bytes (jsq "data: {`delta`:{`text`:`late`}}") ++ [x0a]] in
  closed st = true
  /\ sent (finish node End (feed node (js "s") more st)) = sent st
  /\ closed (finish node End (feed node (js "s") more st)) = true.
Proof.
  cbv zeta. split; [vm_compute; reflexivity|].
  apply closed_stream_stays_silent. vm_compute. reflexivity.
Defined.

(** X16. When no complete upstream line is the sentinel [data: [DONE]],
    the stream route stores no assistant turn: the conversation map after
    the exchange is the one before it, however the upstream ends; and the
    text accumulated for the history is the concatenation of the texts of
    the fragments that were sent to the client, in order; each of them is
    a value whose conversion to text does not throw. *)
Theorem no_sentinel_no_assistant_turn (P : Platform) (sid : jsstring)
    (c : gmap jsstring (list Message)) (chunks : list (list byte))
    (fin : upstream_end) :
  ~ In DONE_LINE (complete_lines chunks) ->
  conversations (run P sid c chunks fin) = c
  /\ fullResponse (run P sid c chunks fin)
     = concat (map (text_of P) (delta_values (sent (run P sid c chunks fin))))
  /\ Forall (fun v => is_Some (ToString P v))
            (delta_values (sent (run P sid c chunks fin))).
Proof.
  intros Hno. destruct (no_sentinel_run P sid c chunks fin Hno) as [H1 H2].
  split; [exact H1|]. split; [exact H2|]. apply sent_deltas_convert.
Qed.

Lemma no_sentinel_no_assistant_turn_witness :
  let chunks := [bytes (jsq "data: {`delta`:{`text`:`Hi`}}") ++ [x0a];
                 bytes (jsq "data: {`delta`:{`text`:` there`}}")] in
  ~ In DONE_LINE (complete_lines chunks)
  /\ conversations (run node (js "s") ∅ chunks End) = ∅
  /\ fullResponse (run node (js "s") ∅ chunks End)
     = concat (map (text_of node)
                 (delta_values (sent (run node (js "s") ∅ chunks End))))
  /\ Forall (fun v => is_Some (ToString node v))
            (delta_values (sent (run node (js "s") ∅ chunks End))).
Proof.
  cbv zeta.
  assert (H : ~ In DONE_LINE
                (complete_lines
                   [bytes (jsq "data: {`delta`:{`text`:`Hi`}}") ++ [x0a];
                    bytes (jsq "data: {`delta`:{`text`:` there`}}")])).
  { vm_compute. intros [E|[]]. discriminate E. }
  split; [exact H|]. apply no_sentinel_no_assistant_turn. exact H.
Defined.

(** X17. A complete line that is not the sentinel and carries no fragment
    (a blank line, a line without the [data: ] prefix, a payload that is
    not JSON or has no truthy [delta.text]) is skipped without any effect:
    the loop over the lines ends in the same state as without that line. *)
Theorem line_without_fragment_is_skipped (P : Platform) (sid : jsstring)
    (l1 l2 : list jsstring) (line : jsstring) (st : relay) :
  line <> DONE_LINE ->
  (forall payload, line_payload line = Some payload -> fragment P payload = None) ->
  process_lines P sid (l1 ++ line :: l2) st = process_lines P sid (l1 ++ l2) st.
Proof. apply process_lines_ignored. Qed.

Lemma line_without_fragment_is_skipped_witness :
  let l1 := [jsq "data: {`delta`:{`text`:`a`}}"] in
  let l2 := [jsq "data: {`delta`:{`text`:`b`}}"; jsq "data: [DONE]"] in
  let line := jsq "data: {`delta`:{`text`:" in
  process_lines node (js "s") (l1 ++ line :: l2) (start ∅)
  = process_lines node (js "s") (l1 ++ l2) (start ∅).
Proof.
  cbv zeta. apply line_without_fragment_is_skipped.
  - vm_compute. discriminate.
  - intros payload H. vm_compute in H. injection H as <-. vm_compute. reflexivity.
Defined.

(** X18. As long as no exception has escaped a listener, the line buffer
    of the stream route is the upstream text after its last newline: it
    holds no newline, and the complete lines read so far, each followed by
    a newline, then the buffer, give back the decoded upstream text. *)
Theorem buffer_is_text_after_last_newline (P : Platform) (sid : jsstring)
    (c : gmap jsstring (list Message)) (chunks : list (list byte)) :
  uncaught (feed P sid chunks (start c)) = false ->
  buffer (feed P sid chunks (start c)) = last_fragment chunks
  /\ ~ In 10 (buffer (feed P sid chunks (start c)))
  /\ upstream_text chunks
     = with_newlines (complete_lines chunks) ++ buffer (feed P sid chunks (start c)).
Proof. apply buffer_facts. Qed.

Lemma buffer_is_text_after_last_newline_witness :
  let chunks := [bytes (jsq "data: {`delta`:{`text`:`Hi`}}") ++ [x0a]
                   ++ bytes (jsq "data: {`del");
                 bytes (jsq "ta`:{`text`:`!`}}") ++ [x0a] ++ bytes (js "dat")] in
  let st := feed node (js "s") chunks (start ∅) in
  buffer st = last_fragment chunks
  /\ ~ In 10 (buffer st)
  /\ upstream_text chunks = with_newlines (complete_lines chunks) ++ buffer st.
Proof.
  cbv zeta. apply buffer_is_text_after_last_newline. vm_compute. reflexivity.
Defined.

(** X19. A last upstream frame that no newline follows is dropped: the
    ['end'] listener parses the whole leftover, its [data: ] prefix
    included, and no JSON text begins with the letter [d]; so the end of
    the upstream adds no event to those already sent. *)
Theorem unterminated_last_frame_is_dropped (P : Platform) (sid : jsstring)
    (c : gmap jsstring (list Message)) (chunks : list (list byte)) :
  (forall text, JSON_parse P (100 :: text) = None) ->
  startsWith (last_fragment chunks) DATA_PREFIX = true ->
  sent (run P sid c chunks End) = sent (feed P sid chunks (start c)).
Proof. apply end_drops_data_frame. Qed.

Lemma unterminated_last_frame_is_dropped_witness :
  let chunks := [bytes (jsq "data: {`delta`:{`text`:`Hi`}}") ++ [x0a]
                   ++ bytes (jsq "data: {`delta`:{`text`:` there`}}")] in
  sent (run node (js "s") ∅ chunks End) = sent (feed node (js "s") chunks (start ∅)).
Proof.
  cbv zeta. apply unterminated_last_frame_is_dropped.
  - intros text. reflexivity.
  - vm_compute. reflexivity.
Defined.

(** ** The chat page *)

Section WordCount.

Lemma exec_space_run (p : option N) (s : jsstring) :
  exec false (Plus CSpace) p s
  = match s with
    | c :: t => if is_space c then Some (trim_start t) else None
    | [] => None
    end.
Proof.
  unfold exec. cbn [m]. destruct s as [|c t]; [done|].
  cbn [in_class]. destruct (is_space c); [|done].
  generalize (Some c). induction t as [|x t IH]; intros q; [done|].
  cbn [star_greedy trim_start in_class]. destruct (is_space x); [|done].
  by rewrite IH.
Qed.

Lemma trim_start_length (s : jsstring) : (length (trim_start s) <= length s)%nat.
Proof.
  induction s as [|c s IH]; [done|]. simpl. destruct (is_space c); simpl; lia.
Qed.

Lemma split_from_skip (n : nat) (p : option N) (s : jsstring) :
  (n <= length s - length (trim_start s))%nat ->
  exists q, split_from (Plus CSpace) n [] p s
            = split_from (Plus CSpace) O [] q (drop n s)
            /\ trim_start (drop n s) = trim_start s.
Proof.
  revert p s. induction n as [|n IH]; intros p s Hn.
  - exists p. by rewrite drop_0.
  - destruct s as [|c t]; [simpl in Hn; lia|].
    simpl in Hn. destruct (is_space c) eqn:E; [|simpl in Hn; lia].
    destruct (IH (Some c) t) as (q & H1 & H2); [lia|].
    exists q. cbn [split_from drop trim_start]. rewrite E. done.
Qed.

Lemma word_count_trim_start (s : jsstring) :
  word_count false (trim_start s) = word_count false s.
Proof.
  induction s as [|c s IH]; [done|]. simpl.
  destruct (is_space c) eqn:E; [done|]. simpl. by rewrite E.
Qed.

Lemma split_from_count (n : nat) :
  forall (s piece : jsstring) (p : option N),
    (length s <= n)%nat ->
    nonempty_pieces (split_from (Plus CSpace) O piece p s)
    = (word_count (0 <? length piece)%nat s
       + (if (0 <? length piece)%nat then 1 else 0))%nat.
Proof.
  induction n as [|n IH]; intros s piece p Hn.
  - destruct s; [|simpl in Hn; lia]. unfold nonempty_pieces. simpl.
    by destruct (0 <? length piece)%nat.
  - destruct s as [|c t].
    { unfold nonempty_pieces. simpl. by destruct (0 <? length piece)%nat. }
    cbn [split_from]. rewrite exec_space_run. cbn [word_count].
    destruct (is_space c) eqn:E.
    + pose proof (trim_start_length t) as Hl.
      replace (length (c :: t) - length (trim_start t))%nat
        with (S (length t - length (trim_start t))) by (simpl; lia).
      destruct (split_from_skip (length t - length (trim_start t)) (Some c) t)
        as (q & -> & Ht); [lia|].
      unfold nonempty_pieces in *. cbn [List.filter].
      assert (Hrest :
        length (List.filter (fun word => (0 <? length word)%nat)
                  (split_from (Plus CSpace) 0 [] q
                     (drop (length t - length (trim_start t)) t)))
        = word_count false t).
      { rewrite IH by (rewrite length_drop; simpl in Hn; lia).
        simpl. rewrite Nat.add_0_r.
        rewrite <- (word_count_trim_start (drop _ t)), Ht.
        apply word_count_trim_start. }
      destruct (0 <? length piece)%nat; simpl; rewrite Hrest; lia.
    + rewrite IH by (simpl in Hn; lia).
      rewrite length_app. simpl.
      replace (0 <? length piece + 1)%nat with true
        by (symmetry; apply Nat.ltb_lt; lia).
      destruct (0 <? length piece)%nat; lia.
Qed.

Lemma trim_start_decomp (s : jsstring) :
  exists ws, forallb is_space ws = true /\ s = ws ++ trim_start s.
Proof.
  induction s as [|c s (ws & H1 & H2)]; [by exists []|]. simpl.
  destruct (is_space c) eqn:E; [|by exists []].
  exists (c :: ws). simpl. rewrite E, H1. split; [done|]. by rewrite <- H2.
Qed.

Lemma word_count_app_spaces (b : bool) (s ws : jsstring) :
  forallb is_space ws = true -> word_count b (s ++ ws) = word_count b s.
Proof.
  intros Hws. revert b. induction s as [|c s IH]; intros b.
  - simpl. revert b. induction ws as [|w ws IH]; intros b; [done|].
    simpl in *. apply andb_prop in Hws as [-> Hws]. by apply IH.
  - simpl. destruct (is_space c); by rewrite IH.
Qed.

Lemma word_count_trim (s : jsstring) :
  word_count false (trim s) = word_count false s.
Proof.
  unfold trim, trim_end. rewrite <- (word_count_trim_start s).
  generalize (trim_start s). clear s. intros s.
  destruct (trim_start_decomp (rev s)) as (ws & Hws & Hs).
  assert (H : s = rev (trim_start (rev s)) ++ rev ws).
  { rewrite <- rev_app_distr, <- Hs. by rewrite rev_involutive. }
  clear Hs. revert H. generalize (rev (trim_start (rev s))). intros t ->.
  symmetry. apply word_count_app_spaces.
  rewrite forallb_forall in *. intros x Hx. apply Hws. by apply in_rev.
Qed.

Lemma estimate_word_count (text : jsstring) :
  estimateWords text = word_count false text.
Proof.
  rewrite <- word_count_trim. unfold estimateWords, split_by.
  generalize (trim text). clear text. intros s.
  destruct s as [|c t]; [done|].
  pose proof (split_from_count (length (c :: t)) (c :: t) [] None) as H.
  unfold nonempty_pieces in H. rewrite H by lia.
  change (0 <? length [])%nat with false. cbv iota. lia.
Qed.

Lemma blank_iff_no_word (s : jsstring) :
  str_eqb (trim s) [] = true <-> word_count false s = O.
Proof.
  rewrite <- word_count_trim. destruct (trim_clean s) as [Hs _].
  destruct (trim s) as [|c t]; [done|]. simpl in *. rewrite Hs. split; [done|lia].
Qed.

End WordCount.

(** X20. [estimateWords] returns the number of words of the text, a word
    being a maximal run of characters that are not white space; leading
    and trailing white space and the length of the gaps do not count. *)
Theorem estimate_words_counts_runs (text : jsstring) :
  estimateWords text = word_count false text.
Proof. apply estimate_word_count. Qed.

(** X21. [sendMessage] goes on to send the trimmed input exactly when no
    request is loading and the input has at least one word and at most
    [MAX_INPUT_WORDS] words; a blank input is one with no word. *)
Theorem message_is_sent_iff (inputMessage : jsstring) (isLoading : bool) :
  sendMessage_proceeds inputMessage isLoading = true
  <-> isLoading = false
      /\ (1 <= word_count false inputMessage <= MAX_INPUT_WORDS)%nat.
Proof.
  unfold sendMessage_proceeds. cbv zeta.
  rewrite estimate_word_count, word_count_trim.
  pose proof (blank_iff_no_word inputMessage) as Hb.
  destruct (str_eqb (trim inputMessage) []) eqn:E.
  - simpl. destruct Hb as [Hb _]. rewrite Hb by done. split; [done|]. lia.
  - destruct isLoading; simpl; [split; [done|]; by intros [? _]|].
    rewrite negb_true_iff, Nat.ltb_ge.
    assert (word_count false inputMessage <> O) by (intros H; apply Hb in H; done).
    split; [intros; split; [done|lia] | intros [_ ?]; lia].
Qed.
